(** * zksync.js: compact-float codec and canonical transaction layout

    A shallow embedding of the signer and of the codec utilities it imports
    (both in [src/signer.ts]): the packing of amounts and fees into the
    exponent/mantissa wire format, the field serializers and the byte layout
    of the messages handed to the signing primitive.

    Node [Buffer]s are mutable and passed by reference, so they live in a
    heap and the functions that touch them run in a small state-and-exception
    monad.  [BN] values and JavaScript integers are [Z]. *)

From Stdlib Require Import ZArith Lia Bool Ascii String.
From stdpp Require Import base tactics option list numbers strings.

Local Open Scope Z_scope.

(** ** JavaScript numbers and bn.js integers *)

Module JS.

(** [ToInt32]: the wrap-around applied to the operands and the result of
    the bitwise operators. *)
Definition to_int32 (x : Z) : Z := (x + 2 ^ 31) mod 2 ^ 32 - 2 ^ 31.

(** [a << n]: only the low five bits of the shift count are used. *)
Definition shl (a n : Z) : Z := to_int32 (Z.shiftl (to_int32 a) (n mod 32)).

(** [a & b] *)
Definition and (a b : Z) : Z := to_int32 (Z.land (to_int32 a) (to_int32 b)).

(** Storing a number into a [Uint8Array] slot keeps its low eight bits. *)
Definition to_uint8 (x : Z) : Z := x mod 256.

End JS.

(** bn.js integers are sign-and-magnitude; the operations used here that
    look at bits or at an exponent work on the magnitude. *)
Module BN.

Definition t := Z.

Definition pow (a num : t) : t := a ^ Z.abs num.
Definition gt (a b : t) : bool := a >? b.
Definition mul (a b : t) : t := a * b.
Definition add (a b : t) : t := a + b.
Definition subn (a : t) (n : Z) : t := a - n.
(** Division truncates toward zero.  bn.js asserts that the divisor is at
    most [0x3ffffff]; the one caller divides by [exp_base], which every use
    in the source sets to 10, and larger divisors are left out. *)
Definition divn (a : t) (n : Z) : t := Z.quot a n.
Definition testn (a : t) (bit : Z) : bool := Z.testbit (Z.abs a) bit.

(** [new BN(bytes, 16, "be")] on a byte array: the base is ignored and the
    bytes are read as one big-endian number. *)
Definition of_bytes_be (bytes : list Z) : t :=
  fold_left (fun acc b => acc * 256 + b) bytes 0.

(** The loop of [toArrayLike] that peels the low byte off [q] until [q] is
    zero, writing from the end of the array. *)
Fixpoint bytes_be_loop (fuel : nat) (q : Z) (acc : list Z) : list Z :=
  match fuel with
  | O => acc
  | S fuel' =>
      if q =? 0 then acc
      else bytes_be_loop fuel' (Z.shiftr q 8) (Z.land q 255 :: acc)
  end.

(** [ceil(bitLength / 8)], zero for zero. *)
Definition byteLength (a : t) : nat :=
  if a =? 0 then O else Z.to_nat ((Z.log2 (Z.abs a) + 8) / 8).

End BN.

(** ** Errors, the heap of buffers and the monad *)

Inductive error : Type :=
| BadAddressPrefix      (* "ETH address must start with '0x' and Sync address start with 'sync:'" *)
| BadAddressLength      (* "Address must be 20 bytes long" *)
| NegativeTokenId       (* "Negative tokenId" *)
| TokenIdTooBig         (* "TokenId is too big" *)
| NegativeNonce         (* "Negative nonce" *)
| IncorrectInputLength  (* "Float unpacking, incorrect input length" *)
| WrongNumberOfBits     (* "wrong number of bits to pack" *)
| IntegerTooBig         (* "Integer is too big" *)
| AmountNotPackable     (* "Transaction Amount is not packable" *)
| FeeNotPackable        (* "Fee Amount is not packable" *)
| ValueOutOfRange       (* Node's range check in writeUInt16BE / writeUInt32BE *)
| ByteArrayTooLong      (* bn.js: "byte array longer than desired length" *)
| NoSuchBuffer          (* a reference that is not in the heap; not reachable from JS *)
| Diverges              (* the normalisation loop does not end *)
| NegativeAccountId     (* "Negative account id" *)
| AccountIdTooBig       (* "AccountId is too big" *)
| NotSyncAddress.       (* "Sync address must start with 'sync:'" *)

Inductive result (A : Type) : Type :=
| Ok (a : A)
| Throw (e : error).
Arguments Ok {A} a.
Arguments Throw {A} e.

(** A buffer is a reference into the heap; the heap maps allocation indices
    to byte contents. *)
Abbreviation Buffer := nat (only parsing).
Abbreviation heap := (list (list Z)) (only parsing).

Definition M (A : Type) : Type := heap -> result A * heap.

Definition ret {A} (a : A) : M A := fun h => (Ok a, h).
Definition throw {A} (e : error) : M A := fun h => (Throw e, h).
Definition bind {A B} (m : M A) (k : A -> M B) : M B :=
  fun h => match m h with
           | (Ok a, h') => k a h'
           | (Throw e, h') => (Throw e, h')
           end.

Notation "'let*' x ':=' m 'in' k" := (bind m (fun x => k))
  (at level 10, x name, m at level 100, k at level 200).
Notation "'do' m 'then' k" := (bind m (fun _ => k))
  (at level 10, m at level 100, k at level 200).

Fixpoint for_each {A} (xs : list A) (body : A -> M unit) : M unit :=
  match xs with
  | [] => ret tt
  | x :: xs' => do body x then for_each xs' body
  end.

Fixpoint map_m {A B} (f : A -> M B) (xs : list A) : M (list B) :=
  match xs with
  | [] => ret []
  | x :: xs' => let* y := f x in let* ys := map_m f xs' in ret (y :: ys)
  end.

(** [0, 1, ..., n-1] as the values of a counting [for] loop. *)
Definition upto (n : Z) : list Z := map Z.of_nat (seq 0 (Z.to_nat n)).

(** ** Buffer primitives *)

Module Buf.

(** A fresh buffer with the given contents. *)
Definition new (bytes : list Z) : M Buffer :=
  fun h => (Ok (length h), h ++ [bytes]).

(** [Buffer.alloc(n, 0)] *)
Definition alloc (n : nat) : M Buffer := new (replicate n 0).

Definition bytes (b : Buffer) : M (list Z) :=
  fun h => match h !! b with
           | Some bs => (Ok bs, h)
           | None => (Throw NoSuchBuffer, h)
           end.

Definition store (b : Buffer) (bs : list Z) : M unit :=
  fun h => (Ok tt, <[b := bs]> h).

(** [b[i] = v]; a write past the end of a typed array is dropped. *)
Definition set (b : Buffer) (i : nat) (v : Z) : M unit :=
  let* bs := bytes b in store b (<[i := JS.to_uint8 v]> bs).

(** [Buffer.from(b)] copies. *)
Definition from (b : Buffer) : M Buffer :=
  let* bs := bytes b in new bs.

(** [b.reverse()] reverses in place and returns the same buffer. *)
Definition reverse (b : Buffer) : M Buffer :=
  let* bs := bytes b in do store b (rev bs) then ret b.

(** [b.map(f)] builds a new typed array and leaves [b] alone. *)
Definition map (f : Z -> Z) (b : Buffer) : M Buffer :=
  let* bs := bytes b in new (List.map (fun x => JS.to_uint8 (f x)) bs).

(** [Buffer.concat(list)] *)
Definition concat (bs : list Buffer) : M Buffer :=
  let* parts := map_m bytes bs in new (List.concat parts).

End Buf.

(** ** utils.ts *)

Definition AMOUNT_EXPONENT_BIT_WIDTH : Z := 5.
Definition AMOUNT_MANTISSA_BIT_WIDTH : Z := 35.
Definition FEE_EXPONENT_BIT_WIDTH : Z := 5.
Definition FEE_MANTISSA_BIT_WIDTH : Z := 11.

(** The two loops of [floatToInteger]: starting at bit [i], add [pow2] to the
    accumulator for each set bit and double [pow2]. *)
Fixpoint accumulate_bits (floatHolder : BN.t) (i : Z) (count : nat)
    (acc pow2 : BN.t) : BN.t :=
  match count with
  | O => acc
  | S count' =>
      let acc' := if BN.testn floatHolder i then BN.add acc pow2 else acc in
      accumulate_bits floatHolder (i + 1) count' acc' (BN.mul pow2 2)
  end.

Definition floatToInteger (floatBytes : Buffer)
    (expBits mantissaBits expBaseNumber : Z) : M BN.t :=
  let* bytes := Buf.bytes floatBytes in
  if negb (Z.of_nat (length bytes) * 8 =? mantissaBits + expBits)
  then throw IncorrectInputLength
  else
    let floatHolder := BN.of_bytes_be bytes in
    let expBase := expBaseNumber in
    let exponent := accumulate_bits floatHolder 0 (Z.to_nat expBits) 0 1 in
    let exponent := BN.pow expBase exponent in
    let mantissa :=
      accumulate_bits floatHolder expBits (Z.to_nat mantissaBits) 0 1 in
    ret (BN.mul exponent mantissa).

(** [bits[i]]; reading past the end gives [undefined], which is falsy. *)
Definition bit_at (bits : list bool) (i : nat) : bool := nth i bits false.

Definition byte_of_bits (bits : list bool) (byte : nat) : Z :=
  let value := 0 in
  let value := if bit_at bits (byte * 8) then Z.lor value 0x80 else value in
  let value := if bit_at bits (byte * 8 + 1) then Z.lor value 0x40 else value in
  let value := if bit_at bits (byte * 8 + 2) then Z.lor value 0x20 else value in
  let value := if bit_at bits (byte * 8 + 3) then Z.lor value 0x10 else value in
  let value := if bit_at bits (byte * 8 + 4) then Z.lor value 0x08 else value in
  let value := if bit_at bits (byte * 8 + 5) then Z.lor value 0x04 else value in
  let value := if bit_at bits (byte * 8 + 6) then Z.lor value 0x02 else value in
  let value := if bit_at bits (byte * 8 + 7) then Z.lor value 0x01 else value in
  value.

Definition bitsIntoBytesInBEOrder (bits : list bool) : M Buffer :=
  if negb (length bits mod 8 =? 0)%nat
  then throw WrongNumberOfBits
  else
    let nBytes := (length bits / 8)%nat in
    let* resultBytes := Buf.alloc nBytes in
    do for_each (seq 0 nBytes)
         (fun byte => Buf.set resultBytes byte (byte_of_bits bits byte))
    then ret resultBytes.

(** The [while] loop of [integerToFloat].  [None] when the fuel runs out. *)
Fixpoint normalize (fuel : nat) (exp_base : Z) (max_mantissa mantissa : BN.t)
    (exponent : Z) : option (BN.t * Z) :=
  if BN.gt mantissa max_mantissa then
    match fuel with
    | O => None
    | S fuel' =>
        normalize fuel' exp_base max_mantissa (BN.divn mantissa exp_base)
          (exponent + 1)
    end
  else Some (mantissa, exponent).

(** With a base of at least two every round at least halves the mantissa, so
    one round per bit of the input is enough. *)
Definition normalize_fuel (integer : BN.t) : nat :=
  S (Z.to_nat (Z.log2 integer)).

(** The [encoding] array of [integerToFloat]: the exponent bits, then the
    mantissa bits, each least significant bit first. *)
Definition float_encoding (exponent : Z) (mantissa : BN.t)
    (exp_bits mantissa_bits : Z) : list bool :=
  List.map (fun i => negb (JS.and exponent (JS.shl 1 i) =? 0)) (upto exp_bits)
  ++ List.map (fun i => BN.testn mantissa i) (upto mantissa_bits).

Definition integerToFloat (integer : BN.t)
    (exp_bits mantissa_bits exp_base : Z) : M Buffer :=
  let max_exponent := BN.pow 10 (JS.shl 1 exp_bits - 1) in
  let max_mantissa := BN.subn (BN.pow 2 mantissa_bits) 1 in
  if BN.gt integer (BN.mul max_mantissa max_exponent)
  then throw IntegerTooBig
  else
    match normalize (normalize_fuel integer) exp_base max_mantissa integer 0 with
    | None => throw Diverges
    | Some (mantissa, exponent) =>
        let encoding := float_encoding exponent mantissa exp_bits mantissa_bits in
        let* packed := bitsIntoBytesInBEOrder (rev encoding) in
        let* flipped := Buf.reverse packed in
        Buf.from flipped
    end.

(** The function handed to [map] in [reverseBits]. *)
Definition reverse_bits_in_byte (b : Z) : Z :=
  let b := Z.lor (Z.shiftr (Z.land b 0xf0) 4) (Z.shiftl (Z.land b 0x0f) 4) in
  let b := Z.lor (Z.shiftr (Z.land b 0xcc) 2) (Z.shiftl (Z.land b 0x33) 2) in
  let b := Z.lor (Z.shiftr (Z.land b 0xaa) 1) (Z.shiftl (Z.land b 0x55) 1) in
  b.

(** The array returned by [map] is dropped. *)
Definition reverseBits (buffer : Buffer) : M Buffer :=
  let* flipped := Buf.reverse buffer in
  let* reversed := Buf.from flipped in
  do Buf.map reverse_bits_in_byte reversed then
  ret reversed.

Definition packAmount (amount : BN.t) : M Buffer :=
  let* encoded := integerToFloat amount
                    AMOUNT_EXPONENT_BIT_WIDTH AMOUNT_MANTISSA_BIT_WIDTH 10 in
  reverseBits encoded.

Definition packFee (amount : BN.t) : M Buffer :=
  let* encoded := integerToFloat amount
                    FEE_EXPONENT_BIT_WIDTH FEE_MANTISSA_BIT_WIDTH 10 in
  reverseBits encoded.

(** [utils.bigNumberify(x).toString()] followed by [new BN(...)], and the
    decimal rendering compared in the checked packers, carry an integer
    through unchanged; amounts are [Z] throughout. *)
Definition closestPackableTransactionAmount (amount : Z) : M Z :=
  let amountBN := amount in
  let* packedAmount := packAmount amountBN in
  floatToInteger packedAmount
    AMOUNT_EXPONENT_BIT_WIDTH AMOUNT_MANTISSA_BIT_WIDTH 10.

Definition closestPackableTransactionFee (fee : Z) : M Z :=
  let feeBN := fee in
  let* packedFee := packFee feeBN in
  floatToInteger packedFee FEE_EXPONENT_BIT_WIDTH FEE_MANTISSA_BIT_WIDTH 10.

Definition packAmountChecked (amount : BN.t) : M Buffer :=
  let* closest := closestPackableTransactionAmount amount in
  if negb (closest =? amount)
  then throw AmountNotPackable
  else packAmount amount.

Definition packFeeChecked (amount : BN.t) : M Buffer :=
  let* closest := closestPackableTransactionFee amount in
  if negb (closest =? amount)
  then throw FeeNotPackable
  else packFee amount.

(** ** signer.ts *)

Definition MAX_NUMBER_OF_TOKENS : Z := 4096.

(** [s.substr(n)]: the string without its first [n] characters. *)
Fixpoint substr (n : nat) (s : string) : string :=
  match n, s with
  | O, _ => s
  | S n', String _ s' => substr n' s'
  | S _, EmptyString => EmptyString
  end.

Definition startsWith (s p : string) : bool := String.prefix p s.

(** The value of one hexadecimal digit, in either case: the character codes
    of [0-9], [a-f] and [A-F]. *)
Definition unhex (c : ascii) : option Z :=
  let code := Z.of_nat (nat_of_ascii c) in
  if (48 <=? code) && (code <=? 57) then Some (code - 48)
  else if (97 <=? code) && (code <=? 102) then Some (code - 87)
  else if (65 <=? code) && (code <=? 70) then Some (code - 55)
  else None.

(** [Buffer.from(s, "hex")]: two digits per byte; decoding stops at the
    first pair that is not two hexadecimal digits, and a trailing single
    character is ignored. *)
Fixpoint hex_decode (s : string) : list Z :=
  match s with
  | String hi (String lo rest) =>
      match unhex hi, unhex lo with
      | Some a, Some b => (a * 16 + b) :: hex_decode rest
      | _, _ => []
      end
  | _ => []
  end.

(** The [prefixlessAddress] constant of [serializeAddress]: [None] stands for
    [null]. *)
Definition prefixlessAddress (address : string) : option string :=
  if startsWith address "0x" then Some (substr 2 address)
  else if startsWith address "sync:" then Some (substr 5 address)
  else None.

(* Sync or eth address *)
Definition serializeAddress (address : string) : M Buffer :=
  match prefixlessAddress address with
  | None => throw BadAddressPrefix
  | Some prefixless =>
      let* addressBytes := Buf.new (hex_decode prefixless) in
      let* bytes := Buf.bytes addressBytes in
      if negb (length bytes =? 20)%nat
      then throw BadAddressLength
      else ret addressBytes
  end.

(** Node's [writeUInt16BE] and [writeUInt32BE]: a range check, then one
    byte per slot. *)
Definition writeUInt16BE (b : Buffer) (value : Z) (offset : nat) : M unit :=
  if (value <? 0) || (value >? 0xffff)
  then throw ValueOutOfRange
  else
    do Buf.set b offset (Z.shiftr value 8) then
    Buf.set b (offset + 1) value.

Definition writeUInt32BE (b : Buffer) (value : Z) (offset : nat) : M unit :=
  if (value <? 0) || (value >? 0xffffffff)
  then throw ValueOutOfRange
  else
    do Buf.set b (offset + 3) value then
    let value := Z.shiftr value 8 in
    do Buf.set b (offset + 2) value then
    let value := Z.shiftr value 8 in
    do Buf.set b (offset + 1) value then
    let value := Z.shiftr value 8 in
    Buf.set b offset value.

Definition serializeTokenId (tokenId : Z) : M Buffer :=
  if tokenId <? 0 then throw NegativeTokenId
  else if tokenId >=? MAX_NUMBER_OF_TOKENS then throw TokenIdTooBig
  else
    let* buffer := Buf.alloc 2 in
    do writeUInt16BE buffer tokenId 0 then
    ret buffer.

Definition serializeAmountPacked (amount : Z) : M Buffer :=
  let bnAmount := amount in
  packAmountChecked bnAmount.

(** bn.js [toArrayLike(Buffer, "be", length)]: the magnitude, big-endian,
    left-padded with zeros to [length] bytes. *)
Definition toArrayLike_be (a : BN.t) (len : nat) : M Buffer :=
  let byteLength := BN.byteLength a in
  let reqLength := if (len =? 0)%nat then Nat.max 1 byteLength else len in
  if (reqLength <? byteLength)%nat
  then throw ByteArrayTooLong
  else
    Buf.new (replicate (reqLength - byteLength) 0
             ++ BN.bytes_be_loop byteLength (Z.abs a) []).

Definition serializeAmountFull (amount : Z) : M Buffer :=
  let bnAmount := amount in
  toArrayLike_be bnAmount 16.

Definition serializeFeePacked (fee : Z) : M Buffer :=
  let bnFee := fee in
  packFeeChecked bnFee.

Definition serializeNonce (nonce : Z) : M Buffer :=
  if nonce <? 0 then throw NegativeNonce
  else
    let* buff := Buf.alloc 4 in
    do writeUInt32BE buff nonce 0 then
    ret buff.

(** The fields handed to [signSyncTransfer] and [signSyncWithdraw]; the
    second address is [to] for a transfer and [ethAddress] for a withdrawal.
    Token id and nonce are JavaScript numbers; the integers among them are
    modelled. *)
Record TxFields : Type := {
  tx_from : string;
  tx_to : string;
  tx_tokenId : Z;
  tx_amount : Z;
  tx_fee : Z;
  tx_nonce : Z
}.

Section Signer.

(** The signing primitive of [crypto.ts] is outside this development: any
    function of the private key and the message bytes. *)
Variable Signature : Type.
Variable signTransactionBytes : BN.t -> list Z -> Signature.

Record Signer : Type := { privateKey : BN.t }.

(** The signed object returned by both methods; amount and fee are the
    decimal renderings of the inputs. *)
Record SignedTx : Type := {
  type : string;
  from : string;
  to : string;
  token : Z;
  amount : Z;
  fee : Z;
  nonce : Z;
  signature : Signature
}.

Definition sign (this : Signer) (msgBytes : Buffer) : M Signature :=
  let* msg := Buf.bytes msgBytes in
  ret (signTransactionBytes (privateKey this) msg).

Definition signSyncTransfer (this : Signer) (transfer : TxFields)
    : M SignedTx :=
  let* type := Buf.new [5] in (* tx type *)
  let* from := serializeAddress (tx_from transfer) in
  let* to := serializeAddress (tx_to transfer) in
  let* token := serializeTokenId (tx_tokenId transfer) in
  let* amount := serializeAmountPacked (tx_amount transfer) in
  let* fee := serializeFeePacked (tx_fee transfer) in
  let* nonce := serializeNonce (tx_nonce transfer) in
  let* msgBytes := Buf.concat [type; from; to; token; amount; fee; nonce] in
  let* signature := sign this msgBytes in
  ret {| type := "Transfer";
         from := tx_from transfer;
         to := tx_to transfer;
         token := tx_tokenId transfer;
         amount := tx_amount transfer;
         fee := tx_fee transfer;
         nonce := tx_nonce transfer;
         signature := signature |}.

Definition signSyncWithdraw (this : Signer) (withdraw : TxFields)
    : M SignedTx :=
  let* typeBytes := Buf.new [3] in
  let* accountBytes := serializeAddress (tx_from withdraw) in
  let* ethAddressBytes := serializeAddress (tx_to withdraw) in
  let* tokenIdBytes := serializeTokenId (tx_tokenId withdraw) in
  let* amountBytes := serializeAmountFull (tx_amount withdraw) in
  let* feeBytes := serializeFeePacked (tx_fee withdraw) in
  let* nonceBytes := serializeNonce (tx_nonce withdraw) in
  let* msgBytes :=
    Buf.concat [typeBytes; accountBytes; ethAddressBytes; tokenIdBytes;
                amountBytes; feeBytes; nonceBytes] in
  let* signature := sign this msgBytes in
  ret {| type := "Withdraw";
         from := tx_from withdraw;
         to := tx_to withdraw;
         token := tx_tokenId withdraw;
         amount := tx_amount withdraw;
         fee := tx_fee withdraw;
         nonce := tx_nonce withdraw;
         signature := signature |}.

End Signer.

(** ** The rest of signer.ts *)

Definition MAX_NUMBER_OF_ACCOUNTS : Z := JS.shl 1 24.

(** [b.slice(start)] is a view onto the memory of [b] from [start] on.  The
    heap has no views; the one slice of the source, in [serializeAccountId],
    is taken of a local buffer that nothing else holds, so the view is a
    buffer of its own holding the bytes from [start] on. *)
Definition slice_of_local (b : Buffer) (start : nat) : M Buffer :=
  let* bs := Buf.bytes b in Buf.new (drop start bs).

Definition serializeAccountId (accountId : Z) : M Buffer :=
  if accountId <? 0 then throw NegativeAccountId
  else if accountId >=? MAX_NUMBER_OF_ACCOUNTS then throw AccountIdTooBig
  else
    let* buffer := Buf.alloc 4 in
    do writeUInt32BE buffer accountId 0 then
    (* only 3 bytes *)
    slice_of_local buffer 1.

(** One digit of [toString("hex")]: [0-9], then [a-f]. *)
Definition hex_digit (n : Z) : ascii :=
  if n <? 10 then ascii_of_nat (Z.to_nat (48 + n))
  else ascii_of_nat (Z.to_nat (87 + n)).

(** [buffer.toString("hex")]: two lowercase digits per byte. *)
Fixpoint hex_encode (bytes : list Z) : string :=
  match bytes with
  | [] => EmptyString
  | b :: rest =>
      String (hex_digit (b / 16)) (String (hex_digit (b mod 16)) (hex_encode rest))
  end.

Section CloseAccount.

Variable Signature : Type.
Variable signTransactionBytes : BN.t -> list Z -> Signature.

(** The curve operations of [crypto.ts] are outside this development: the
    public point of a private key and the address bytes hashed from it. *)
Variable Point : Type.
Variable privateKeyToPublicKey : BN.t -> Point.
Variable pubkeyToAddress : Point -> list Z.

(** The constructor is private and sets [publicKey] from [privateKey]; both
    fields are read-only. *)
Definition publicKey (this : Signer) : Point :=
  privateKeyToPublicKey (privateKey this).

Definition address (this : Signer) : M string :=
  let* hashed := Buf.new (pubkeyToAddress (publicKey this)) in
  let* bytes := Buf.bytes hashed in
  ret ("sync:" +:+ hex_encode bytes).

Record SignedClose : Type := {
  close_type : string;
  close_account : string;
  close_nonce : Z;
  close_signature : Signature
}.

Definition signSyncCloseAccount (this : Signer) (nonce : Z) : M SignedClose :=
  let* type := Buf.new [4] in
  let* own := address this in
  let* account := serializeAddress own in
  let* nonceBytes := serializeNonce nonce in
  let* msg := Buf.concat [type; account; nonceBytes] in
  let* signature := sign Signature signTransactionBytes this msg in
  let* shown := address this in
  ret {| close_type := "Close";
         close_account := shown;
         close_nonce := nonce;
         close_signature := signature |}.

End CloseAccount.

(** ** The rest of utils.ts *)

(** [new Array(n)] has [n] empty slots; every one of them is assigned by the
    loops below, and an unassigned slot is shown as [false]. *)
Definition buffer2bitsLE_body (b : Z) (i : nat) (res : list bool) : list bool :=
  let res := <[(i * 8)%nat := negb (JS.and b 0x01 =? 0)]> res in
  let res := <[(i * 8 + 1)%nat := negb (JS.and b 0x02 =? 0)]> res in
  let res := <[(i * 8 + 2)%nat := negb (JS.and b 0x04 =? 0)]> res in
  let res := <[(i * 8 + 3)%nat := negb (JS.and b 0x08 =? 0)]> res in
  let res := <[(i * 8 + 4)%nat := negb (JS.and b 0x10 =? 0)]> res in
  let res := <[(i * 8 + 5)%nat := negb (JS.and b 0x20 =? 0)]> res in
  let res := <[(i * 8 + 6)%nat := negb (JS.and b 0x40 =? 0)]> res in
  let res := <[(i * 8 + 7)%nat := negb (JS.and b 0x80 =? 0)]> res in
  res.

Definition buffer2bitsBE_body (b : Z) (i : nat) (res : list bool) : list bool :=
  let res := <[(i * 8)%nat := negb (JS.and b 0x80 =? 0)]> res in
  let res := <[(i * 8 + 1)%nat := negb (JS.and b 0x40 =? 0)]> res in
  let res := <[(i * 8 + 2)%nat := negb (JS.and b 0x20 =? 0)]> res in
  let res := <[(i * 8 + 3)%nat := negb (JS.and b 0x10 =? 0)]> res in
  let res := <[(i * 8 + 4)%nat := negb (JS.and b 0x08 =? 0)]> res in
  let res := <[(i * 8 + 5)%nat := negb (JS.and b 0x04 =? 0)]> res in
  let res := <[(i * 8 + 6)%nat := negb (JS.and b 0x02 =? 0)]> res in
  let res := <[(i * 8 + 7)%nat := negb (JS.and b 0x01 =? 0)]> res in
  res.

(** The loop over the bytes of the buffer, [i] counting up from its start
    value. *)
Fixpoint buffer2bits_loop (body : Z -> nat -> list bool -> list bool)
    (bytes : list Z) (i : nat) (res : list bool) : list bool :=
  match bytes with
  | [] => res
  | b :: rest => buffer2bits_loop body rest (S i) (body b i res)
  end.

Definition buffer2bitsLE (buff : Buffer) : M (list bool) :=
  let* bytes := Buf.bytes buff in
  let res := replicate (length bytes * 8) false in
  ret (buffer2bits_loop buffer2bitsLE_body bytes 0 res).

Definition buffer2bitsBE (buff : Buffer) : M (list bool) :=
  let* bytes := Buf.bytes buff in
  let res := replicate (length bytes * 8) false in
  ret (buffer2bits_loop buffer2bitsBE_body bytes 0 res).

Definition syncToLegacyAddress (address : string) : M string :=
  if negb (startsWith address "sync:")
  then throw NotSyncAddress
  else ret ("0x" +:+ substr 5 address).

(** * Vocabulary of the statements

    Pure descriptions of what the functions above compute, the two codec
    parameterisations, and the predicates the theorems are phrased with. *)

Definition is_byte (b : Z) : Prop := 0 <= b < 256.

(** The bytes that [bitsIntoBytesInBEOrder] writes for a list of bits. *)
Definition packed_bytes (bits : list bool) : list Z :=
  List.map (byte_of_bits bits) (seq 0 (length bits / 8)).

(** The normalised mantissa and exponent, or the error of the overflow
    check. *)
Definition float_fields (integer : BN.t) (exp_bits mantissa_bits exp_base : Z)
    : result (BN.t * Z) :=
  let max_exponent := BN.pow 10 (JS.shl 1 exp_bits - 1) in
  let max_mantissa := BN.subn (BN.pow 2 mantissa_bits) 1 in
  if BN.gt integer (BN.mul max_mantissa max_exponent)
  then Throw IntegerTooBig
  else
    match normalize (normalize_fuel integer) exp_base max_mantissa integer 0 with
    | None => Throw Diverges
    | Some p => Ok p
    end.

(** The packed big-endian bytes of a mantissa and exponent. *)
Definition float_bytes (exponent : Z) (mantissa : BN.t)
    (exp_bits mantissa_bits : Z) : list Z :=
  packed_bytes (rev (float_encoding exponent mantissa exp_bits mantissa_bits)).

(** The value [floatToInteger] reads out of a sequence of bytes. *)
Definition decode_bytes (bytes : list Z) (expBits mantissaBits expBase : Z) : Z :=
  let floatHolder := BN.of_bytes_be bytes in
  BN.mul
    (BN.pow expBase (accumulate_bits floatHolder 0 (Z.to_nat expBits) 0 1))
    (accumulate_bits floatHolder expBits (Z.to_nat mantissaBits) 0 1).

(** [integerToFloat] followed by [reverseBits], at any widths. *)
Definition pack (eb mb : Z) (v : BN.t) : M Buffer :=
  let* encoded := integerToFloat v eb mb 10 in reverseBits encoded.

(** The four buffers a successful [pack] appends to the heap; the third is
    the one it returns. *)
Definition pack_trail (be : list Z) : list (list Z) :=
  [rev be; be; be; List.map (fun x => JS.to_uint8 (reverse_bits_in_byte x)) be].

Definition max_mantissa (mb : Z) : Z := 2 ^ mb - 1.
Definition max_value (eb mb : Z) : Z := max_mantissa mb * 10 ^ (2 ^ eb - 1).

(** [e] is the least number of divisions by ten that brings [v] under the
    mantissa bound. *)
Definition least_exponent (mb v e : Z) : Prop :=
  0 <= e /\ v / 10 ^ e <= max_mantissa mb
  /\ forall j, 0 <= j < e -> max_mantissa mb < v / 10 ^ j.

Definition closest (eb mb : Z) (v : Z) : M Z :=
  let* packed := pack eb mb v in floatToInteger packed eb mb 10.

Definition pack_checked (eb mb : Z) (err : error) (v : BN.t) : M Buffer :=
  let* nearest := closest eb mb v in
  if negb (nearest =? v) then throw err else pack eb mb v.

(** The two parameterisations of the codec. *)
Inductive kind : Type := Amount | Fee.

Definition exponent_width (k : kind) : Z :=
  match k with
  | Amount => AMOUNT_EXPONENT_BIT_WIDTH
  | Fee => FEE_EXPONENT_BIT_WIDTH
  end.

Definition mantissa_width (k : kind) : Z :=
  match k with
  | Amount => AMOUNT_MANTISSA_BIT_WIDTH
  | Fee => FEE_MANTISSA_BIT_WIDTH
  end.

Definition not_packable (k : kind) : error :=
  match k with Amount => AmountNotPackable | Fee => FeeNotPackable end.

Definition closestPackable (k : kind) : Z -> M Z :=
  match k with
  | Amount => closestPackableTransactionAmount
  | Fee => closestPackableTransactionFee
  end.

Definition packChecked (k : kind) : BN.t -> M Buffer :=
  match k with
  | Amount => packAmountChecked
  | Fee => packFeeChecked
  end.

Definition is_hex_digit (c : ascii) : bool :=
  match unhex c with Some _ => true | None => false end.

Fixpoint all_hex (s : string) : bool :=
  match s with
  | EmptyString => true
  | String c s' => is_hex_digit c && all_hex s'
  end.

(** ASCII lower-casing, as [toLowerCase] acts on the characters of an
    address. *)
Definition to_lower (c : ascii) : ascii :=
  let n := nat_of_ascii c in
  if ((65 <=? n) && (n <=? 90))%nat then ascii_of_nat (n + 32) else c.

Fixpoint lowercase (s : string) : string :=
  match s with
  | EmptyString => EmptyString
  | String c s' => String (to_lower c) (lowercase s')
  end.

(** The bytes of the buffer a serializer returns (on an empty heap; the lemmas
    below show that the heap it runs on makes no difference), or [None] when
    it throws. *)
Definition contents (m : M Buffer) : option (list Z) :=
  match m [] with
  | (Ok b, h) => h !! b
  | (Throw _, _) => None
  end.

(** Every buffer of [h] is in [h'] with the same bytes. *)
Definition extends (h h' : heap) : Prop := exists t, h' = h ++ t.

(** [m] run on [h] returns a buffer holding [bytes] and only adds to [h]. *)
Definition allocates (m : M Buffer) (h : heap) (bytes : list Z) : Prop :=
  exists b h', m h = (Ok b, h') /\ extends h h' /\ h' !! b = Some bytes.

Definition uint16_be (v : Z) : list Z :=
  [JS.to_uint8 (Z.shiftr v 8); JS.to_uint8 v].

Definition uint32_be (v : Z) : list Z :=
  [JS.to_uint8 (Z.shiftr (Z.shiftr (Z.shiftr v 8) 8) 8);
   JS.to_uint8 (Z.shiftr (Z.shiftr v 8) 8);
   JS.to_uint8 (Z.shiftr v 8);
   JS.to_uint8 v].

Definition example_signer : Signer := {| privateKey := 1 |}.

Definition example_fields : TxFields :=
  {| tx_from := "0x00112233445566778899aabbccddeeff01020304";
     tx_to := "sync:ffeeddccbbaa99887766554433221100a0b0c0d0";
     tx_tokenId := 1;
     tx_amount := 1000;
     tx_fee := 2047000;
     tx_nonce := 7 |}.

(** The eight bits of a byte, least significant first and most significant
    first. *)
Definition le_bits (b : Z) : list bool :=
  List.map (Z.testbit b) [0; 1; 2; 3; 4; 5; 6; 7].

Definition be_bits (b : Z) : list bool :=
  List.map (Z.testbit b) [7; 6; 5; 4; 3; 2; 1; 0].

(** The unchecked packer of a kind. *)
Definition packOf (k : kind) : BN.t -> M Buffer :=
  match k with
  | Amount => packAmount
  | Fee => packFee
  end.

(** Whatever it returns or throws, [m] leaves every buffer that was in the
    heap before it ran with the bytes it had. *)
Definition appends {A} (m : M A) : Prop :=
  forall h : heap, extends h (snd (m h)).

(** A stand-in for the address hash in examples: twenty bytes [0xab]. *)
Definition example_hash (p : unit) : list Z := replicate 20 171.

Definition example_point (sk : BN.t) : unit := tt.

(** Whether a string starts with two hexadecimal digits. *)
Definition begins_with_hex_pair (s : string) : bool :=
  match s with
  | String hi (String lo _) => is_hex_digit hi && is_hex_digit lo
  | _ => false
  end.

(** * Properties *)

(** ** Running the monad *)

Lemma bind_ok {A B} (m : M A) (k : A -> M B) h a h' :
  m h = (Ok a, h') -> bind m k h = k a h'.
Proof. intros E. unfold bind. now rewrite E. Qed.

Lemma bind_throw {A B} (m : M A) (k : A -> M B) h e h' :
  m h = (Throw e, h') -> bind m k h = (Throw e, h').
Proof. intros E. unfold bind. now rewrite E. Qed.

Lemma lookup_fresh (h : heap) (bs : list Z) : (h ++ [bs]) !! length h = Some bs.
Proof. now rewrite list_lookup_middle. Qed.

Lemma bytes_run (h : heap) b bs :
  h !! b = Some bs -> Buf.bytes b h = (Ok bs, h).
Proof. intros E. unfold Buf.bytes. now rewrite E. Qed.

Lemma set_run (h : heap) b bs i v :
  h !! b = Some bs ->
  Buf.set b i v h = (Ok tt, <[b := <[i := JS.to_uint8 v]> bs]> h).
Proof.
  intros E. unfold Buf.set. now rewrite (bind_ok _ _ _ _ _ (bytes_run _ _ _ E)).
Qed.

Lemma from_run (h : heap) b bs :
  h !! b = Some bs -> Buf.from b h = (Ok (length h), h ++ [bs]).
Proof.
  intros E. unfold Buf.from. now rewrite (bind_ok _ _ _ _ _ (bytes_run _ _ _ E)).
Qed.

Lemma reverse_run (h : heap) b bs :
  h !! b = Some bs -> Buf.reverse b h = (Ok b, <[b := rev bs]> h).
Proof.
  intros E. unfold Buf.reverse.
  now rewrite (bind_ok _ _ _ _ _ (bytes_run _ _ _ E)).
Qed.

Lemma map_run (h : heap) f b bs :
  h !! b = Some bs ->
  Buf.map f b h
  = (Ok (length h), h ++ [List.map (fun x => JS.to_uint8 (f x)) bs]).
Proof.
  intros E. unfold Buf.map. now rewrite (bind_ok _ _ _ _ _ (bytes_run _ _ _ E)).
Qed.

(** Writing [f i] at every index [i] of the range [s, s + k) of a buffer. *)
Lemma fill_run (f : nat -> Z) b k : forall s (h : heap) bs,
  h !! b = Some bs -> (s + k <= length bs)%nat ->
  for_each (seq s k) (fun i => Buf.set b i (f i)) h
  = (Ok tt,
     <[b := take s bs ++ List.map (fun i => JS.to_uint8 (f i)) (seq s k)
            ++ drop (s + k) bs]> h).
Proof.
  induction k as [|k IH]; intros s h bs E L; simpl.
  - unfold ret. rewrite Nat.add_0_r. simpl. rewrite take_drop.
    now rewrite list_insert_id.
  - rewrite (bind_ok _ _ _ _ _ (set_run _ _ _ _ _ E)).
    assert (Hb : (b < length h)%nat) by (eapply lookup_lt_Some; eauto).
    rewrite (IH (S s) _ (<[s := JS.to_uint8 (f s)]> bs)).
    + rewrite list_insert_insert_eq. f_equal. f_equal.
      rewrite (take_S_r _ _ (JS.to_uint8 (f s))).
      2:{ apply list_lookup_insert_eq. lia. }
      rewrite take_insert_ge by lia.
      rewrite drop_insert_lt by lia.
      rewrite <- app_assoc. simpl. now replace (s + S k)%nat with (S (s + k)) by lia.
    + now apply list_lookup_insert_eq.
    + rewrite length_insert. lia.
Qed.

(** ** Bits of a packed buffer *)

Lemma to_uint8_byte b : is_byte b -> JS.to_uint8 b = b.
Proof. intros H. unfold JS.to_uint8. now apply Z.mod_small. Qed.

Lemma to_uint8_is_byte b : is_byte (JS.to_uint8 b).
Proof. unfold is_byte, JS.to_uint8. apply Z.mod_pos_bound. lia. Qed.

Ltac split_bits :=
  repeat match goal with
         | |- context [bit_at ?l ?i] => destruct (bit_at l i)
         end.

Lemma byte_of_bits_is_byte bits byte : is_byte (byte_of_bits bits byte).
Proof.
  unfold byte_of_bits, is_byte.
  split_bits; vm_compute; (split; [discriminate|reflexivity]).
Qed.

(** Bit [j] of a packed byte is the bit that was at position [7 - j] of its
    group of eight. *)
Lemma byte_of_bits_testbit bits byte j :
  (j < 8)%nat ->
  Z.testbit (byte_of_bits bits byte) (Z.of_nat j)
  = bit_at bits (byte * 8 + (7 - j)).
Proof.
  intros Hj. unfold byte_of_bits.
  do 8 (destruct j as [|j]; [simpl Nat.sub; rewrite ?Nat.add_0_r;
                             split_bits; reflexivity|]).
  lia.
Qed.

Lemma of_bytes_be_snoc bs b :
  BN.of_bytes_be (bs ++ [b]) = BN.of_bytes_be bs * 256 + b.
Proof. unfold BN.of_bytes_be. now rewrite fold_left_app. Qed.

Lemma of_bytes_be_nonneg bs : Forall is_byte bs -> 0 <= BN.of_bytes_be bs.
Proof.
  induction bs as [|b bs IH] using rev_ind; intros F; [easy|].
  apply Forall_app in F as [F1 F2]. inversion F2; subst.
  rewrite of_bytes_be_snoc. unfold is_byte in *. specialize (IH F1). lia.
Qed.

(** Byte [q] from the end holds bits [8q .. 8q+7] of the number. *)
Lemma of_bytes_be_testbit bs : forall q r,
  Forall is_byte bs -> (q < length bs)%nat -> (r < 8)%nat ->
  Z.testbit (BN.of_bytes_be bs) (Z.of_nat (8 * q + r))
  = Z.testbit (nth (length bs - 1 - q) bs 0) (Z.of_nat r).
Proof.
  induction bs as [|b bs IH] using rev_ind; intros q r F Hq Hr.
  - simpl in Hq. lia.
  - apply Forall_app in F as [F1 F2]. inversion F2 as [|? ? Hb _]; subst.
    rewrite of_bytes_be_snoc, length_app in *. cbn [length] in *.
    destruct q as [|q].
    + replace (length bs + 1 - 1 - 0)%nat with (length bs) by lia.
      rewrite app_nth2, Nat.sub_diag by lia. simpl nth.
      rewrite <- (Z.mod_pow2_bits_low _ 8) by lia.
      f_equal. change (2 ^ 8) with 256.
      rewrite Z.add_comm, Z.mod_add by lia. now apply Z.mod_small.
    + replace (length bs + 1 - 1 - S q)%nat with (length bs - 1 - q)%nat by lia.
      rewrite app_nth1 by lia. rewrite <- IH by (auto; lia).
      replace (Z.of_nat (8 * S q + r)) with (Z.of_nat (8 * q + r) + 8) by lia.
      rewrite <- Z.div_pow2_bits by lia. f_equal. change (2 ^ 8) with 256.
      rewrite Z.add_comm, Z.div_add by lia.
      rewrite Z.div_small by (unfold is_byte in Hb; lia). lia.
Qed.

Lemma nth_map_seq {A} (f : nat -> A) n k d :
  (k < n)%nat -> nth k (List.map f (seq 0 n)) d = f k.
Proof.
  intros Hk. rewrite (nth_indep _ d (f 0%nat)) by now rewrite length_map, length_seq.
  now rewrite map_nth, seq_nth.
Qed.

Lemma nth_map_upto {A} (f : Z -> A) n k d :
  0 <= k < n -> nth (Z.to_nat k) (List.map f (upto n)) d = f k.
Proof.
  intros Hk. unfold upto. rewrite map_map, nth_map_seq by lia. f_equal. lia.
Qed.

Lemma length_upto n : length (upto n) = Z.to_nat n.
Proof. unfold upto. now rewrite length_map, length_seq. Qed.

Lemma packed_bytes_length bits : length (packed_bytes bits) = (length bits / 8)%nat.
Proof. unfold packed_bytes. now rewrite length_map, length_seq. Qed.

Lemma packed_bytes_are_bytes bits : Forall is_byte (packed_bytes bits).
Proof.
  unfold packed_bytes. apply Forall_map, Forall_forall. intros. apply byte_of_bits_is_byte.
Qed.

(** Read as one big-endian number, the packing of the reversed bit list has
    the original list as its bits, least significant first. *)
Lemma packed_rev_testbit (l : list bool) (i : nat) :
  (length l mod 8 = 0)%nat -> (i < length l)%nat ->
  Z.testbit (BN.of_bytes_be (packed_bytes (rev l))) (Z.of_nat i) = nth i l false.
Proof.
  intros Hm Hi.
  pose proof (Nat.div_mod_eq (length l) 8) as Hl. rewrite Hm in Hl.
  pose proof (Nat.div_mod_eq i 8) as E.
  pose proof (Nat.mod_upper_bound i 8) as Hr.
  set (n := (length l / 8)%nat) in *.
  set (q := (i / 8)%nat) in *. set (r := (i mod 8)%nat) in *.
  rewrite E at 1.
  rewrite of_bytes_be_testbit;
    rewrite ?packed_bytes_length, ?length_rev; fold n;
    [|apply packed_bytes_are_bytes|lia|lia].
  unfold packed_bytes. rewrite length_rev. fold n.
  rewrite nth_map_seq by lia.
  rewrite byte_of_bits_testbit by lia. unfold bit_at.
  rewrite rev_nth by lia. f_equal. lia.
Qed.

(** ** Decoding loops *)

Lemma accumulate_bits_spec H n : forall i acc p,
  0 <= i ->
  accumulate_bits H i n acc p
  = acc + p * ((Z.abs H / 2 ^ i) mod 2 ^ Z.of_nat n).
Proof.
  induction n as [|n IH]; intros i acc p Hi.
  - simpl. rewrite Z.mod_1_r. lia.
  - cbn [accumulate_bits]. rewrite IH by lia.
    unfold BN.testn, BN.add, BN.mul.
    rewrite Nat2Z.inj_succ, Z.pow_succ_r by lia.
    rewrite (Z.rem_mul_r _ 2 (2 ^ Z.of_nat n)) by lia.
    rewrite Z.div_div by lia.
    replace (2 ^ i * 2) with (2 ^ (i + 1)) by (rewrite Z.pow_add_r by lia; lia).
    rewrite <- (Z.testbit_spec' (Z.abs H) i) by lia.
    destruct (Z.testbit (Z.abs H) i); simpl Z.b2z; lia.
Qed.

Lemma accumulate_bits_eq H i n x :
  0 <= i -> 0 <= H -> 0 <= x < 2 ^ Z.of_nat n ->
  (forall k, 0 <= k < Z.of_nat n -> Z.testbit x k = Z.testbit H (i + k)) ->
  accumulate_bits H i n 0 1 = x.
Proof.
  intros Hi HH Hx Hbits. rewrite accumulate_bits_spec by lia.
  rewrite Z.abs_eq by lia. rewrite Z.add_0_l, Z.mul_1_l.
  rewrite <- (Z.mod_small x (2 ^ Z.of_nat n)) by lia.
  apply Z.bits_inj'. intros k Hk.
  destruct (Z.lt_ge_cases k (Z.of_nat n)).
  - rewrite !Z.mod_pow2_bits_low by lia.
    rewrite Z.div_pow2_bits by lia. rewrite Hbits by lia. f_equal. lia.
  - now rewrite !Z.mod_pow2_bits_high by lia.
Qed.

(** ** JavaScript integer operators on small operands *)

Lemma to_int32_small x : - 2 ^ 31 <= x < 2 ^ 31 -> JS.to_int32 x = x.
Proof. intros H. unfold JS.to_int32. rewrite Z.mod_small; lia. Qed.

Lemma shl_one i : 0 <= i <= 30 -> JS.shl 1 i = 2 ^ i.
Proof.
  intros H. unfold JS.shl. rewrite (to_int32_small 1) by lia.
  rewrite Z.mod_small by lia. rewrite Z.shiftl_1_l.
  apply to_int32_small. split.
  - pose proof (Z.pow_pos_nonneg 2 i). lia.
  - apply Z.pow_lt_mono_r; lia.
Qed.

Lemma land_pow2 e i :
  0 <= i -> Z.land e (2 ^ i) = if Z.testbit e i then 2 ^ i else 0.
Proof.
  intros Hi. apply Z.bits_inj'. intros k Hk.
  rewrite Z.land_spec, Z.pow2_bits_eqb by lia.
  destruct (Z.eqb_spec i k) as [->|Hne].
  - rewrite andb_true_r. destruct (Z.testbit e k) eqn:E.
    + now rewrite Z.pow2_bits_true.
    + now rewrite Z.bits_0.
  - rewrite andb_false_r. destruct (Z.testbit e i).
    + now rewrite Z.pow2_bits_false.
    + now rewrite Z.bits_0.
Qed.

(** The test [(exponent & (1 << i)) == 0] reads bit [i] of the exponent. *)
Lemma exponent_bit e i :
  0 <= e < 2 ^ 31 -> 0 <= i <= 30 ->
  negb (JS.and e (JS.shl 1 i) =? 0) = Z.testbit e i.
Proof.
  intros He Hi. rewrite shl_one by lia. unfold JS.and.
  assert (Hp : 0 < 2 ^ i < 2 ^ 31).
  { split; [apply Z.pow_pos_nonneg; lia | apply Z.pow_lt_mono_r; lia]. }
  rewrite (to_int32_small e), (to_int32_small (2 ^ i)) by lia.
  rewrite land_pow2 by lia.
  destruct (Z.testbit e i).
  - rewrite to_int32_small by lia. destruct (Z.eqb_spec (2 ^ i) 0); [lia|easy].
  - now rewrite to_int32_small by lia.
Qed.

(** ** The normalisation loop *)

Lemma normalize_spec fuel base maxm : forall m e m' e',
  0 <= m -> 0 < base ->
  normalize fuel base maxm m e = Some (m', e') ->
  exists k, 0 <= k /\ e' = e + k /\ m' = m / base ^ k /\ m' <= maxm
            /\ forall j, 0 <= j < k -> maxm < m / base ^ j.
Proof.
  induction fuel as [|fuel IH]; intros m e m' e' Hm Hb; cbn [normalize];
    unfold BN.gt, BN.divn; destruct (Z.gtb_spec m maxm) as [Hgt|Hle];
    intros E; try discriminate.
  1,3: injection E as <- <-; exists 0; rewrite Z.pow_0_r, Z.div_1_r;
       repeat split; try lia.
  rewrite Z.quot_div_nonneg in E by lia.
  apply IH in E as (k & Hk & -> & -> & Hle & Hmin); [|apply Z.div_pos; lia|lia].
  exists (k + 1). repeat split; try lia.
  - rewrite Z.div_div by (try apply Z.pow_pos_nonneg; lia).
    now rewrite Z.pow_add_r, Z.pow_1_r, Z.mul_comm by lia.
  - intros j Hj. destruct (Z.eq_dec j 0) as [->|Hj0].
    + now rewrite Z.pow_0_r, Z.div_1_r.
    + specialize (Hmin (j - 1) ltac:(lia)).
      rewrite Z.div_div in Hmin by (try apply Z.pow_pos_nonneg; lia).
      rewrite <- Z.pow_succ_r in Hmin by lia.
      now replace (Z.succ (j - 1)) with j in Hmin by lia.
Qed.

Lemma normalize_total fuel base maxm : forall m e,
  2 <= base -> 0 <= maxm -> 0 <= m < 2 ^ Z.of_nat fuel ->
  exists r, normalize fuel base maxm m e = Some r.
Proof.
  induction fuel as [|fuel IH]; intros m e Hb Hmax Hm; cbn [normalize];
    unfold BN.gt, BN.divn; destruct (Z.gtb_spec m maxm) as [Hgt|Hle]; eauto.
  - simpl in Hm. lia.
  - rewrite Z.quot_div_nonneg by lia. apply IH; try lia.
    split; [apply Z.div_pos; lia|].
    rewrite Nat2Z.inj_succ, Z.pow_succ_r in Hm by lia.
    apply Z.le_lt_trans with (m / 2).
    + apply Z.div_le_compat_l; lia.
    + apply Z.div_lt_upper_bound; lia.
Qed.

Lemma normalize_fuel_enough v : 0 <= v -> v < 2 ^ Z.of_nat (normalize_fuel v).
Proof.
  intros Hv. unfold normalize_fuel.
  rewrite Nat2Z.inj_succ, Z2Nat.id by apply Z.log2_nonneg.
  destruct (Z.eq_dec v 0) as [->|Hne]; [easy|].
  apply Z.log2_spec. lia.
Qed.

(** ** What each codec function does to the heap *)

Lemma bitsIntoBytesInBEOrder_run bits (h : heap) :
  bitsIntoBytesInBEOrder bits h
  = if (length bits mod 8 =? 0)%nat
    then (Ok (length h), h ++ [packed_bytes bits])
    else (Throw WrongNumberOfBits, h).
Proof.
  unfold bitsIntoBytesInBEOrder.
  destruct (length bits mod 8 =? 0)%nat; [|reflexivity]. cbn [negb].
  set (n := (length bits / 8)%nat).
  unfold Buf.alloc. rewrite (bind_ok _ _ h (length h) (h ++ [replicate n 0]))
    by reflexivity.
  erewrite bind_ok.
  2:{ apply (fill_run _ _ n 0%nat _ (replicate n 0)).
      - apply lookup_fresh.
      - rewrite length_replicate. lia. }
  unfold ret. f_equal.
  rewrite insert_app_r_alt, Nat.sub_diag by lia. cbn [take app].
  rewrite drop_ge by (rewrite length_replicate; lia).
  rewrite app_nil_r. cbn. unfold packed_bytes. fold n. do 2 f_equal.
  apply map_ext. intros. apply to_uint8_byte, byte_of_bits_is_byte.
Qed.

Lemma float_encoding_length e m eb mb :
  length (float_encoding e m eb mb) = (Z.to_nat eb + Z.to_nat mb)%nat.
Proof. unfold float_encoding. now rewrite length_app, !length_map, !length_upto. Qed.

Lemma float_bytes_length e m eb mb :
  length (float_bytes e m eb mb) = ((Z.to_nat eb + Z.to_nat mb) / 8)%nat.
Proof.
  unfold float_bytes. now rewrite packed_bytes_length, length_rev, float_encoding_length.
Qed.

(** [integerToFloat] leaves two new buffers behind: the packed bytes, reversed
    in place to little-endian order, and the copy it returns. *)
Lemma integerToFloat_run v eb mb base (h : heap) :
  integerToFloat v eb mb base h
  = match float_fields v eb mb base with
    | Throw e => (Throw e, h)
    | Ok (m, e) =>
        if ((Z.to_nat eb + Z.to_nat mb) mod 8 =? 0)%nat
        then (Ok (S (length h)),
              h ++ [rev (float_bytes e m eb mb); rev (float_bytes e m eb mb)])
        else (Throw WrongNumberOfBits, h)
    end.
Proof.
  unfold integerToFloat, float_fields.
  destruct (BN.gt _ _); [reflexivity|].
  destruct (normalize _ _ _ _ _) as [[m e]|]; [|reflexivity].
  unfold bind at 1. rewrite bitsIntoBytesInBEOrder_run.
  rewrite length_rev, float_encoding_length.
  destruct (_ =? 0)%nat; [|reflexivity].
  fold (float_bytes e m eb mb).
  rewrite (bind_ok _ _ _ _ _ (reverse_run _ _ _ (lookup_fresh _ _))).
  rewrite insert_app_r_alt, Nat.sub_diag by lia. cbn [insert list_insert].
  rewrite (from_run _ _ _ (lookup_fresh _ _)).
  rewrite length_app, <- app_assoc. cbn [length app]. f_equal. f_equal. lia.
Qed.

(** [reverseBits] reverses its argument in place, returns a copy of it and
    leaves behind the bit-reversed array that [map] built. *)
Lemma reverseBits_run b bs (h : heap) :
  h !! b = Some bs ->
  reverseBits b h
  = (Ok (length h),
     <[b := rev bs]> h
     ++ [rev bs; List.map (fun x => JS.to_uint8 (reverse_bits_in_byte x)) (rev bs)]).
Proof.
  intros E. unfold reverseBits.
  assert (Hb : (b < length h)%nat) by (eapply lookup_lt_Some; eauto).
  rewrite (bind_ok _ _ _ _ _ (reverse_run _ _ _ E)).
  assert (E' : <[b := rev bs]> h !! b = Some (rev bs))
    by now apply list_lookup_insert_eq.
  rewrite (bind_ok _ _ _ _ _ (from_run _ _ _ E')).
  rewrite length_insert.
  erewrite bind_ok.
  2:{ apply map_run. rewrite <- (length_insert h b (rev bs)). apply lookup_fresh. }
  unfold ret. now rewrite <- app_assoc.
Qed.

Lemma floatToInteger_run b bs eb mb base (h : heap) :
  h !! b = Some bs ->
  floatToInteger b eb mb base h
  = if Z.of_nat (length bs) * 8 =? mb + eb
    then (Ok (decode_bytes bs eb mb base), h)
    else (Throw IncorrectInputLength, h).
Proof.
  intros E. unfold floatToInteger.
  rewrite (bind_ok _ _ _ _ _ (bytes_run _ _ _ E)).
  now destruct (_ =? _).
Qed.

Lemma packAmount_pack v :
  packAmount v = pack AMOUNT_EXPONENT_BIT_WIDTH AMOUNT_MANTISSA_BIT_WIDTH v.
Proof. reflexivity. Qed.

Lemma packFee_pack v :
  packFee v = pack FEE_EXPONENT_BIT_WIDTH FEE_MANTISSA_BIT_WIDTH v.
Proof. reflexivity. Qed.

Lemma pack_run eb mb v (h : heap) :
  pack eb mb v h
  = match float_fields v eb mb 10 with
    | Throw e => (Throw e, h)
    | Ok (m, e) =>
        if ((Z.to_nat eb + Z.to_nat mb) mod 8 =? 0)%nat
        then (Ok (length h + 2)%nat, h ++ pack_trail (float_bytes e m eb mb))
        else (Throw WrongNumberOfBits, h)
    end.
Proof.
  unfold pack, bind at 1. rewrite integerToFloat_run.
  destruct (float_fields v eb mb 10) as [[m e]|]; [|reflexivity].
  destruct (_ =? 0)%nat; [|reflexivity].
  set (le := rev (float_bytes e m eb mb)).
  assert (E : (h ++ [le; le]) !! S (length h) = Some le).
  { rewrite lookup_app_r by lia.
    now replace (S (length h) - length h)%nat with 1%nat by lia. }
  rewrite (reverseBits_run _ _ _ E). unfold pack_trail, le.
  rewrite rev_involutive, length_app. cbn [length]. f_equal.
  replace (S (length h)) with (length h + 1)%nat by lia.
  rewrite insert_app_r. cbn [insert list_insert]. now rewrite <- app_assoc.
Qed.

(** ** Decoding what was encoded *)

Lemma widths_aligned eb mb :
  0 <= eb -> 0 <= mb -> (eb + mb) mod 8 = 0 ->
  ((Z.to_nat eb + Z.to_nat mb) mod 8 = 0)%nat
  /\ Z.of_nat ((Z.to_nat eb + Z.to_nat mb) / 8) * 8 = mb + eb.
Proof.
  intros He Hm Hal. set (n := (Z.to_nat eb + Z.to_nat mb)%nat).
  assert (Hn : Z.of_nat n = eb + mb) by lia.
  split.
  - apply Nat2Z.inj. now rewrite Nat2Z.inj_mod, Hn.
  - rewrite Nat2Z.inj_div, Hn. change (Z.of_nat 8) with 8.
    pose proof (Z.div_mod (eb + mb) 8). lia.
Qed.

Lemma float_bytes_holder_nonneg e m eb mb :
  0 <= BN.of_bytes_be (float_bytes e m eb mb).
Proof. apply of_bytes_be_nonneg, packed_bytes_are_bytes. Qed.

Lemma float_bytes_testbit e m eb mb (i : nat) :
  ((Z.to_nat eb + Z.to_nat mb) mod 8 = 0)%nat ->
  (i < Z.to_nat eb + Z.to_nat mb)%nat ->
  Z.testbit (BN.of_bytes_be (float_bytes e m eb mb)) (Z.of_nat i)
  = nth i (float_encoding e m eb mb) false.
Proof.
  intros Hal Hi. unfold float_bytes.
  apply packed_rev_testbit; now rewrite float_encoding_length.
Qed.

(** [floatToInteger] recovers the mantissa and the exponent that
    [integerToFloat] laid out. *)
Lemma decode_float_bytes e m eb mb base :
  0 <= eb <= 30 -> 0 <= mb -> (eb + mb) mod 8 = 0 ->
  0 <= e < 2 ^ eb -> 0 <= m < 2 ^ mb ->
  decode_bytes (float_bytes e m eb mb) eb mb base = base ^ e * m.
Proof.
  intros Heb Hmb Hal He Hm.
  destruct (widths_aligned eb mb) as [Hnat _]; try lia.
  assert (He31 : e < 2 ^ 31).
  { apply Z.lt_le_trans with (2 ^ eb); [lia|]. apply Z.pow_le_mono_r; lia. }
  unfold decode_bytes, BN.mul, BN.pow.
  rewrite (accumulate_bits_eq _ 0 _ e); try lia.
  - rewrite (accumulate_bits_eq _ eb _ m); try lia.
    + now rewrite Z.abs_eq by lia.
    + apply float_bytes_holder_nonneg.
    + rewrite Z2Nat.id; lia.
    + intros k Hk. rewrite Z2Nat.id in Hk by lia.
      replace (eb + k) with (Z.of_nat (Z.to_nat eb + Z.to_nat k)) by lia.
      rewrite float_bytes_testbit by (auto; lia).
      unfold float_encoding.
      rewrite app_nth2; rewrite length_map, length_upto; [|lia].
      replace (Z.to_nat eb + Z.to_nat k - Z.to_nat eb)%nat with (Z.to_nat k) by lia.
      rewrite nth_map_upto by lia. unfold BN.testn. now rewrite Z.abs_eq by lia.
  - apply float_bytes_holder_nonneg.
  - rewrite Z2Nat.id; lia.
  - intros k Hk. rewrite Z2Nat.id in Hk by lia. rewrite Z.add_0_l.
    replace k with (Z.of_nat (Z.to_nat k)) at 2 by lia.
    rewrite float_bytes_testbit by (auto; lia).
    unfold float_encoding.
    rewrite app_nth1 by (rewrite length_map, length_upto; lia).
    rewrite nth_map_upto by lia. symmetry. apply exponent_bit; lia.
Qed.

(** ** The overflow check and the chosen exponent *)

Lemma pow2_pos n : 0 <= n -> 0 < 2 ^ n.
Proof. intros. apply Z.pow_pos_nonneg; lia. Qed.

Lemma float_fields_overflow v eb mb base :
  0 <= eb <= 30 -> 0 <= mb ->
  float_fields v eb mb base = Throw IntegerTooBig <-> max_value eb mb < v.
Proof.
  intros Heb Hmb. unfold float_fields, BN.gt, BN.mul, BN.subn, BN.pow.
  rewrite shl_one by lia.
  pose proof (pow2_pos eb).
  rewrite (Z.abs_eq (2 ^ eb - 1)), (Z.abs_eq mb) by lia.
  fold (max_mantissa mb). fold (max_value eb mb).
  destruct (Z.gtb_spec v (max_value eb mb)) as [Hgt|Hle].
  - split; [lia|reflexivity].
  - destruct (normalize _ _ _ _ _); split; (discriminate || lia).
Qed.

Lemma float_fields_ok v eb mb :
  0 <= eb <= 30 -> 0 <= mb -> 0 <= v <= max_value eb mb ->
  exists e, float_fields v eb mb 10 = Ok (v / 10 ^ e, e)
            /\ least_exponent mb v e /\ e < 2 ^ eb.
Proof.
  intros Heb Hmb Hv. unfold float_fields, BN.gt, BN.mul, BN.subn, BN.pow.
  rewrite shl_one by lia.
  pose proof (pow2_pos eb ltac:(lia)). pose proof (pow2_pos mb Hmb).
  rewrite (Z.abs_eq (2 ^ eb - 1)), (Z.abs_eq mb) by lia.
  fold (max_mantissa mb). fold (max_value eb mb).
  destruct (Z.gtb_spec v (max_value eb mb)) as [Hgt|_]; [lia|].
  destruct (normalize_total (normalize_fuel v) 10 (max_mantissa mb) v 0)
    as [[m e] E]; [lia|unfold max_mantissa; lia| |].
  { split; [lia|]. apply normalize_fuel_enough. lia. }
  rewrite E.
  apply normalize_spec in E as (k & Hk & -> & -> & Hle & Hmin); try lia.
  exists k. rewrite Z.add_0_l. repeat split; try easy.
  destruct (Z.lt_ge_cases k (2 ^ eb)) as [|Hge]; [easy|exfalso].
  specialize (Hmin (2 ^ eb - 1) ltac:(lia)).
  assert (v / 10 ^ (2 ^ eb - 1) <= max_mantissa mb); [|lia].
  apply Z.div_le_upper_bound; [apply Z.pow_pos_nonneg; lia|].
  unfold max_value in Hv. lia.
Qed.

(** The least exponent is unique. *)
Lemma least_exponent_unique mb v e1 e2 :
  least_exponent mb v e1 -> least_exponent mb v e2 -> e1 = e2.
Proof.
  intros (H1 & L1 & M1) (H2 & L2 & M2).
  destruct (Z.lt_trichotomy e1 e2) as [Hlt|[Heq|Hgt]]; [|easy|].
  - specialize (M2 e1 ltac:(lia)). lia.
  - specialize (M1 e2 ltac:(lia)). lia.
Qed.

(** ** Nearest packable value at any byte-aligned width *)

Lemma closestPackableTransactionAmount_closest v :
  closestPackableTransactionAmount v
  = closest AMOUNT_EXPONENT_BIT_WIDTH AMOUNT_MANTISSA_BIT_WIDTH v.
Proof. reflexivity. Qed.

Lemma closestPackableTransactionFee_closest v :
  closestPackableTransactionFee v
  = closest FEE_EXPONENT_BIT_WIDTH FEE_MANTISSA_BIT_WIDTH v.
Proof. reflexivity. Qed.

Lemma closest_run eb mb v (h : heap) :
  0 <= eb -> 0 <= mb -> (eb + mb) mod 8 = 0 ->
  closest eb mb v h
  = match float_fields v eb mb 10 with
    | Throw e => (Throw e, h)
    | Ok (m, e) =>
        (Ok (decode_bytes (float_bytes e m eb mb) eb mb 10),
         h ++ pack_trail (float_bytes e m eb mb))
    end.
Proof.
  intros Heb Hmb Hal. destruct (widths_aligned eb mb) as [Hnat Hlen]; try lia.
  unfold closest, bind. rewrite pack_run.
  destruct (float_fields v eb mb 10) as [[m e]|]; [|reflexivity].
  rewrite Hnat. cbn [Nat.eqb].
  erewrite floatToInteger_run.
  2:{ rewrite lookup_app_r by lia.
      replace (length h + 2 - length h)%nat with 2%nat by lia. reflexivity. }
  rewrite float_bytes_length, Hlen. now rewrite Z.eqb_refl.
Qed.

(** Below the overflow bound the nearest packable value is [v] with its low
    digits cleared, for the least exponent that fits the mantissa. *)
Lemma closest_value eb mb v (h : heap) :
  0 <= eb <= 30 -> 0 <= mb -> (eb + mb) mod 8 = 0 ->
  0 <= v <= max_value eb mb ->
  exists e m, least_exponent mb v e /\ e < 2 ^ eb /\ m = v / 10 ^ e
    /\ float_fields v eb mb 10 = Ok (m, e)
    /\ closest eb mb v h
       = (Ok (m * 10 ^ e), h ++ pack_trail (float_bytes e m eb mb)).
Proof.
  intros Heb Hmb Hal Hv.
  destruct (float_fields_ok v eb mb) as (e & E & Hleast & He); try lia.
  exists e, (v / 10 ^ e).
  split; [exact Hleast|]. split; [exact He|]. split; [reflexivity|].
  split; [exact E|].
  rewrite closest_run, E by lia.
  destruct Hleast as (He0 & Hfit & _).
  rewrite decode_float_bytes; try lia.
  - now rewrite Z.mul_comm.
  - split; [|unfold max_mantissa in Hfit; lia].
    apply Z.div_pos; [lia|apply Z.pow_pos_nonneg; lia].
Qed.

(** ** The checked packers *)

Lemma pack_checked_run eb mb err v (h : heap) :
  0 <= eb -> 0 <= mb -> (eb + mb) mod 8 = 0 ->
  pack_checked eb mb err v h
  = match float_fields v eb mb 10 with
    | Throw e => (Throw e, h)
    | Ok (m, e) =>
        let bytes := float_bytes e m eb mb in
        if decode_bytes bytes eb mb 10 =? v
        then (Ok (length h + 6)%nat, h ++ pack_trail bytes ++ pack_trail bytes)
        else (Throw err, h ++ pack_trail bytes)
    end.
Proof.
  intros Heb Hmb Hal. destruct (widths_aligned eb mb) as [Hnat _]; try lia.
  unfold pack_checked, bind at 1. rewrite closest_run by lia.
  destruct (float_fields v eb mb 10) as [[m e]|] eqn:E; [|reflexivity].
  cbn zeta. destruct (_ =? v); cbn [negb]; [|reflexivity].
  rewrite pack_run, E, Hnat. cbn [Nat.eqb].
  rewrite length_app, <- app_assoc. cbn [pack_trail length]. f_equal. f_equal. lia.
Qed.

Lemma closestPackable_closest k :
  closestPackable k = closest (exponent_width k) (mantissa_width k).
Proof. now destruct k. Qed.

Lemma packChecked_pack_checked k :
  packChecked k
  = pack_checked (exponent_width k) (mantissa_width k) (not_packable k).
Proof. now destruct k. Qed.

Lemma kind_widths k :
  0 <= exponent_width k <= 30 /\ 0 <= mantissa_width k
  /\ (exponent_width k + mantissa_width k) mod 8 = 0
  /\ 2 ^ exponent_width k - 1 = 31.
Proof. destruct k; cbv; intuition congruence. Qed.

Lemma kind_max_value k :
  max_value (exponent_width k) (mantissa_width k)
  = (2 ^ mantissa_width k - 1) * 10 ^ 31.
Proof. now destruct k. Qed.

(** ** Nearest representable value *)

(** C2: below the overflow bound, the nearest packable amount (resp. fee) of
    [v] is [(v div 10^e) * 10^e] for the smallest [e] with
    [v div 10^e <= 2^35 - 1] (resp. [2^11 - 1]): decoding recovers exactly the
    mantissa and the exponent that repeated division by ten chose. *)
Theorem closest_packable_truncates (k : kind) (v : Z) (h : heap) :
  0 <= v <= (2 ^ mantissa_width k - 1) * 10 ^ 31 ->
  exists e h',
    0 <= e
    /\ v / 10 ^ e <= 2 ^ mantissa_width k - 1
    /\ (forall j, 0 <= j < e -> 2 ^ mantissa_width k - 1 < v / 10 ^ j)
    /\ closestPackable k v h = (Ok (v / 10 ^ e * 10 ^ e), h').
Proof.
  intros Hv. destruct (kind_widths k) as (Heb & Hmb & Hal & _).
  rewrite <- kind_max_value in Hv.
  destruct (closest_value _ _ v h Heb Hmb Hal Hv)
    as (e & m & (He & Hfit & Hmin) & _ & -> & _ & Hrun).
  rewrite closestPackable_closest. eauto 10.
Qed.

Lemma closest_packable_truncates_witness :
  exists e h',
    0 <= e
    /\ 1000000003 / 10 ^ e <= 2 ^ mantissa_width Fee - 1
    /\ (forall j, 0 <= j < e -> 2 ^ mantissa_width Fee - 1 < 1000000003 / 10 ^ j)
    /\ closestPackable Fee 1000000003 []
       = (Ok (1000000003 / 10 ^ e * 10 ^ e), h').
Proof.
  apply (closest_packable_truncates Fee 1000000003 []).
  vm_compute. split; discriminate.
Defined.

(** C6: the nearest packable value of a nearest packable value is itself, at
    both widths. *)
Theorem closest_packable_idempotent (k : kind) (x : Z) (h : heap) :
  0 <= x <= (2 ^ mantissa_width k - 1) * 10 ^ 31 ->
  exists y h1 h2,
    closestPackable k x h = (Ok y, h1)
    /\ closestPackable k y h1 = (Ok y, h2).
Proof.
  intros Hx. destruct (kind_widths k) as (Heb & Hmb & Hal & _).
  rewrite <- kind_max_value in Hx. rewrite closestPackable_closest.
  set (eb := exponent_width k) in *. set (mb := mantissa_width k) in *.
  destruct (closest_value eb mb x h Heb Hmb Hal Hx)
    as (e & m & (He & Hfit & Hmin) & _ & Hm & _ & Hrun).
  assert (Hp : 0 < 10 ^ e) by (apply Z.pow_pos_nonneg; lia).
  assert (Hm0 : 0 <= m) by (subst m; apply Z.div_pos; lia).
  assert (Hy : 0 <= m * 10 ^ e <= max_value eb mb).
  { split; [lia|]. apply Z.le_trans with x; [|lia].
    subst m. rewrite Z.mul_comm. apply Z.mul_div_le. lia. }
  destruct (closest_value eb mb (m * 10 ^ e) (h ++ pack_trail (float_bytes e m eb mb))
              Heb Hmb Hal Hy)
    as (e' & m' & (He' & Hfit' & Hmin') & _ & Hm' & _ & Hrun').
  exists (m * 10 ^ e). do 2 eexists. split; [exact Hrun|].
  rewrite Hrun'. do 2 f_equal.
  assert (Hle : e' <= e).
  { destruct (Z.le_gt_cases e' e) as [|Hgt]; [easy|].
    specialize (Hmin' e ltac:(lia)). rewrite Z.div_mul in Hmin' by lia.
    rewrite <- Hm in Hfit. lia. }
  assert (Hsplit : 10 ^ e = 10 ^ (e - e') * 10 ^ e').
  { rewrite <- Z.pow_add_r by lia. f_equal. lia. }
  assert (0 < 10 ^ e') by (apply Z.pow_pos_nonneg; lia).
  subst m'. rewrite Hsplit.
  now rewrite Z.mul_assoc, Z.div_mul by lia.
Qed.

Lemma closest_packable_idempotent_witness :
  exists y h1 h2,
    closestPackable Amount 34359738369 [] = (Ok y, h1)
    /\ closestPackable Amount y h1 = (Ok y, h2).
Proof.
  apply (closest_packable_idempotent Amount 34359738369 []).
  vm_compute. split; discriminate.
Defined.

(** ** Round trip through the checked packers *)

(** C1: at both widths, a value below the overflow bound whose nearest
    packable value is itself is accepted by the checked packer, and
    [floatToInteger] applied to the returned buffer gives the value back. *)
Theorem pack_checked_round_trip (k : kind) (v : Z) (h0 h1 h : heap) :
  0 <= v <= (2 ^ mantissa_width k - 1) * 10 ^ 31 ->
  closestPackable k v h0 = (Ok v, h1) ->
  exists b h2 h3,
    packChecked k v h = (Ok b, h2)
    /\ floatToInteger b 5 (mantissa_width k) 10 h2 = (Ok v, h3).
Proof.
  intros _ Hclosest. destruct (kind_widths k) as (Heb & Hmb & Hal & _).
  assert (Hfive : exponent_width k = 5) by now destruct k.
  rewrite closestPackable_closest, closest_run in Hclosest by lia.
  rewrite packChecked_pack_checked, pack_checked_run by lia.
  destruct (float_fields v _ _ 10) as [[m e]|]; [|discriminate].
  injection Hclosest as Hdec _. cbn zeta. rewrite Hdec, Z.eqb_refl.
  do 3 eexists. split; [reflexivity|].
  erewrite floatToInteger_run.
  2:{ rewrite lookup_app_r by lia.
      replace (length h + 6 - length h)%nat with 6%nat by lia. reflexivity. }
  destruct (widths_aligned _ _ (proj1 Heb) Hmb Hal) as [_ Hlen].
  rewrite float_bytes_length, Hlen, <- Hfive, Z.eqb_refl, Hdec. reflexivity.
Qed.

Lemma pack_checked_round_trip_witness :
  exists b h2 h3,
    packChecked Fee 2047000 [] = (Ok b, h2)
    /\ floatToInteger b 5 (mantissa_width Fee) 10 h2 = (Ok 2047000, h3).
Proof.
  eapply (pack_checked_round_trip Fee 2047000 [] _ []).
  - vm_compute. split; discriminate.
  - vm_compute. reflexivity.
Defined.

(** ** The worked example of the doc comment *)

Lemma example_at_width k v m e :
  float_fields v (exponent_width k) (mantissa_width k) 10 = Ok (m, e) ->
  forall h : heap,
    closestPackable k v h
    = (Ok (decode_bytes
             (float_bytes e m (exponent_width k) (mantissa_width k))
             (exponent_width k) (mantissa_width k) 10),
       h ++ pack_trail (float_bytes e m (exponent_width k) (mantissa_width k))).
Proof.
  intros E h. destruct (kind_widths k) as (Heb & Hmb & Hal & _).
  now rewrite closestPackable_closest, closest_run, E by lia.
Qed.

Lemma checked_at_width k v m e :
  float_fields v (exponent_width k) (mantissa_width k) 10 = Ok (m, e) ->
  forall h : heap,
    packChecked k v h
    = let bytes := float_bytes e m (exponent_width k) (mantissa_width k) in
      if decode_bytes bytes (exponent_width k) (mantissa_width k) 10 =? v
      then (Ok (length h + 6)%nat, h ++ pack_trail bytes ++ pack_trail bytes)
      else (Throw (not_packable k), h ++ pack_trail bytes).
Proof.
  intros E h. destruct (kind_widths k) as (Heb & Hmb & Hal & _).
  now rewrite packChecked_pack_checked, pack_checked_run, E by lia.
Qed.

(** C5 fails on the code: the doc comment of
    [closestPackableTransactionAmount] gives 1000000003 => 1000000000, but
    with the 35-bit mantissa 1000000003 is packed exactly, so the function
    returns 1000000003 and the checked packer accepts it, as it accepts
    1000000000. *)
Theorem packability_example (h : heap) :
  (exists h', closestPackableTransactionAmount 1000000003 h
              = (Ok 1000000003, h'))
  /\ (exists b h', packAmountChecked 1000000000 h = (Ok b, h'))
  /\ (exists b h', packAmountChecked 1000000003 h = (Ok b, h')).
Proof.
  repeat split.
  - eexists. now rewrite (example_at_width Amount 1000000003 1000000003 0).
  - do 2 eexists. now rewrite (checked_at_width Amount 1000000000 1000000000 0).
  - do 2 eexists. now rewrite (checked_at_width Amount 1000000003 1000000003 0).
Qed.

(** The sibling fee path does what the doc comment says: the rounding to
    1000000000 and the not-packable error are what the 11-bit fee width
    gives. *)
Lemma packability_example_fee_width (h : heap) :
  (exists h', closestPackableTransactionFee 1000000003 h
              = (Ok 1000000000, h'))
  /\ (exists b h', packFeeChecked 1000000000 h = (Ok b, h'))
  /\ (exists h', packFeeChecked 1000000003 h = (Throw FeeNotPackable, h')).
Proof.
  repeat split.
  - eexists. now rewrite (example_at_width Fee 1000000003 1000 6).
  - do 2 eexists. now rewrite (checked_at_width Fee 1000000000 1000 6).
  - eexists. now rewrite (checked_at_width Fee 1000000003 1000 6).
Qed.

(** The example as the doc comment has it does not hold at the amount
    width. *)
Lemma packability_example_counterexample :
  ~ ((exists h', closestPackableTransactionAmount 1000000003 []
                 = (Ok 1000000000, h'))
     /\ (exists b h', packAmountChecked 1000000000 [] = (Ok b, h'))
     /\ (exists h', packAmountChecked 1000000003 []
                    = (Throw AmountNotPackable, h'))).
Proof.
  intros [[h' E] _]. vm_compute in E. discriminate.
Qed.

(** ** [reverseBits] *)

(** C3: the buffer returned by [reverseBits] holds the bytes of its argument
    in the opposite order, each byte as it was: the array built by [map] is
    not the one returned. *)
Theorem reverseBits_reverses_bytes_only (h : heap) (b : Buffer) (bs : list Z) :
  h !! b = Some bs ->
  exists r h' out,
    reverseBits b h = (Ok r, h')
    /\ h' !! r = Some out
    /\ length out = length bs
    /\ forall i, (i < length bs)%nat -> out !! i = bs !! (length bs - 1 - i)%nat.
Proof.
  intros E. exists (length h). eexists. exists (rev bs).
  split; [exact (reverseBits_run _ _ _ E)|].
  split.
  { rewrite lookup_app_r; rewrite length_insert; [|lia].
    now rewrite Nat.sub_diag. }
  split; [apply length_rev|].
  intros i Hi. rewrite rev_alt. change (rev_append bs []) with (reverse bs).
  rewrite reverse_lookup by lia. f_equal. lia.
Qed.

Lemma reverseBits_reverses_bytes_only_witness :
  exists r h' out,
    reverseBits 0%nat [[1; 2; 128]] = (Ok r, h')
    /\ h' !! r = Some out
    /\ length out = length [1; 2; 128]
    /\ forall i, (i < length [1; 2; 128])%nat ->
                 out !! i = [1; 2; 128] !! (length [1; 2; 128] - 1 - i)%nat.
Proof.
  apply (reverseBits_reverses_bytes_only [[1; 2; 128]] 0%nat [1; 2; 128]).
  reflexivity.
Defined.

(** The argument itself is left reversed. *)
Lemma reverseBits_argument_after (h : heap) (b : Buffer) (bs : list Z) :
  h !! b = Some bs ->
  exists r h', reverseBits b h = (Ok r, h') /\ h' !! b = Some (rev bs).
Proof.
  intros E. do 2 eexists. split; [exact (reverseBits_run _ _ _ E)|].
  apply lookup_app_l_Some, list_lookup_insert_eq.
  eapply lookup_lt_Some; eauto.
Qed.

(** C8 fails on the code: after [reverseBits(b)] the caller's buffer [b]
    holds its bytes in reverse order. *)
Theorem reverseBits_mutates_argument :
  exists r h',
    reverseBits 0%nat [[1; 2]] = (Ok r, h')
    /\ [[1; 2]] !! 0%nat = Some [1; 2]
    /\ h' !! 0%nat = Some [2; 1].
Proof.
  destruct (reverseBits_argument_after [[1; 2]] 0%nat [1; 2] eq_refl)
    as (r & h' & E & Hb).
  exists r, h'. auto.
Qed.

(** ** Overflow *)

(** The claim's second half fails when the widths do not add up to whole
    bytes: zero is below every bound, yet no buffer is returned. *)
Lemma integerToFloat_overflow_counterexample :
  ~ (forall eb mb v (h : heap),
       0 <= v ->
       (fst (integerToFloat v eb mb 10 h) = Throw IntegerTooBig
        <-> (2 ^ mb - 1) * 10 ^ (2 ^ eb - 1) < v)
       /\ (v <= (2 ^ mb - 1) * 10 ^ (2 ^ eb - 1) ->
           exists b h' bytes,
             integerToFloat v eb mb 10 h = (Ok b, h')
             /\ h' !! b = Some bytes
             /\ Z.of_nat (length bytes) = (eb + mb) / 8)).
Proof.
  intros H. destruct (H 5 10 0 [] ltac:(lia)) as [_ Hret].
  destruct Hret as (b & h' & bytes & E & _); [vm_compute; discriminate|].
  vm_compute in E. discriminate.
Qed.

(** C7, as the code behaves: for an exponent width of at most 30 bits,
    [integerToFloat] throws the overflow error exactly above
    [(2^mantissaBits - 1) * 10^(2^expBits - 1)]; at or below that bound it
    returns a buffer of [(expBits + mantissaBits) / 8] bytes when the two
    widths add up to a multiple of eight, and otherwise throws the
    wrong-number-of-bits error. *)
Theorem integerToFloat_overflow (eb mb v : Z) (h : heap) :
  0 <= eb <= 30 -> 0 <= mb -> 0 <= v ->
  (fst (integerToFloat v eb mb 10 h) = Throw IntegerTooBig
   <-> (2 ^ mb - 1) * 10 ^ (2 ^ eb - 1) < v)
  /\ (v <= (2 ^ mb - 1) * 10 ^ (2 ^ eb - 1) ->
      if (eb + mb) mod 8 =? 0
      then exists b h' bytes,
             integerToFloat v eb mb 10 h = (Ok b, h')
             /\ h' !! b = Some bytes
             /\ Z.of_nat (length bytes) = (eb + mb) / 8
      else integerToFloat v eb mb 10 h = (Throw WrongNumberOfBits, h)).
Proof.
  intros Heb Hmb Hv. rewrite integerToFloat_run.
  pose proof (float_fields_overflow v eb mb 10 Heb Hmb) as Hov.
  unfold max_value, max_mantissa in Hov.
  split.
  - destruct (float_fields v eb mb 10) as [[m e]|err].
    + split; intros H.
      * destruct (_ =? 0)%nat; simpl in H; discriminate.
      * apply Hov in H. discriminate.
    + split; intros H.
      * simpl in H. apply Hov. congruence.
      * apply Hov in H. simpl. congruence.
  - intros Hle.
    destruct (float_fields_ok v eb mb Heb Hmb) as (e & -> & _).
    { unfold max_value, max_mantissa. lia. }
    destruct (Z.eqb_spec ((eb + mb) mod 8) 0) as [Hal|Hal].
    + destruct (widths_aligned eb mb) as [Hnat Hlen]; try lia.
      rewrite Hnat. cbn [Nat.eqb].
      exists (S (length h)). eexists.
      exists (rev (float_bytes e (v / 10 ^ e) eb mb)).
      split; [reflexivity|]. split.
      * rewrite lookup_app_r by lia.
        now replace (S (length h) - length h)%nat with 1%nat by lia.
      * rewrite length_rev, float_bytes_length.
        rewrite Nat2Z.inj_div. change (Z.of_nat 8) with 8. f_equal. lia.
    + destruct (Nat.eqb_spec ((Z.to_nat eb + Z.to_nat mb) mod 8) 0) as [Hn|Hn];
        [|reflexivity].
      exfalso. apply Hal.
      replace (eb + mb) with (Z.of_nat (Z.to_nat eb + Z.to_nat mb)) by lia.
      rewrite <- (Nat2Z.inj_mod _ 8), Hn. reflexivity.
Qed.

Lemma integerToFloat_overflow_witness :
  (fst (integerToFloat 20480 5 11 10 []) = Throw IntegerTooBig
   <-> (2 ^ 11 - 1) * 10 ^ (2 ^ 5 - 1) < 20480)
  /\ (20480 <= (2 ^ 11 - 1) * 10 ^ (2 ^ 5 - 1) ->
      if (5 + 11) mod 8 =? 0
      then exists b h' bytes,
             integerToFloat 20480 5 11 10 [] = (Ok b, h')
             /\ h' !! b = Some bytes
             /\ Z.of_nat (length bytes) = (5 + 11) / 8
      else integerToFloat 20480 5 11 10 [] = (Throw WrongNumberOfBits, [])).
Proof.
  apply (integerToFloat_overflow 5 11 20480 []); lia.
Defined.

(** ** Addresses *)

Lemma serializeAddress_run s (h : heap) :
  serializeAddress s h
  = match prefixlessAddress s with
    | None => (Throw BadAddressPrefix, h)
    | Some p =>
        if (length (hex_decode p) =? 20)%nat
        then (Ok (length h), h ++ [hex_decode p])
        else (Throw BadAddressLength, h ++ [hex_decode p])
    end.
Proof.
  unfold serializeAddress. destruct (prefixlessAddress s) as [p|]; [|reflexivity].
  unfold bind at 1. cbn [Buf.new].
  rewrite (bind_ok _ _ _ _ _ (bytes_run _ _ _ (lookup_fresh h (hex_decode p)))).
  now destruct (_ =? 20)%nat.
Qed.

Lemma hex_decode_length n : forall s,
  String.length s = (2 * n)%nat -> all_hex s = true ->
  length (hex_decode s) = n.
Proof.
  induction n as [|n IH]; intros s Hlen Hhex.
  - now destruct s.
  - destruct s as [|hi [|lo rest]]; try (simpl in Hlen; lia).
    cbn [all_hex] in Hhex. apply andb_prop in Hhex as [Hhi Hrest].
    apply andb_prop in Hrest as [Hlo Hrest].
    unfold is_hex_digit in Hhi, Hlo. cbn [hex_decode].
    destruct (unhex hi); [|discriminate]. destruct (unhex lo); [|discriminate].
    cbn [length]. f_equal. apply IH; [|easy]. simpl in Hlen. lia.
Qed.

Lemma prefixless_0x hx : prefixlessAddress ("0x" +:+ hx) = Some hx.
Proof. now destruct hx. Qed.

Lemma prefixless_sync hx : prefixlessAddress ("sync:" +:+ hx) = Some hx.
Proof. now destruct hx. Qed.

(** C9: the two prefixes lead to the same twenty bytes; a string with neither
    prefix is rejected, and so is one whose remainder does not decode to
    exactly twenty bytes. *)
Theorem serializeAddress_prefixes :
  (forall (hx : string) (h : heap),
     String.length hx = 40%nat -> all_hex hx = true ->
     exists bytes,
       length bytes = 20%nat
       /\ serializeAddress ("0x" +:+ hx) h = (Ok (length h), h ++ [bytes])
       /\ serializeAddress ("sync:" +:+ hx) h = (Ok (length h), h ++ [bytes]))
  /\ (forall (s : string) (h : heap),
        startsWith s "0x" = false -> startsWith s "sync:" = false ->
        serializeAddress s h = (Throw BadAddressPrefix, h))
  /\ (forall (s p : string) (h : heap),
        prefixlessAddress s = Some p -> length (hex_decode p) <> 20%nat ->
        fst (serializeAddress s h) = Throw BadAddressLength).
Proof.
  split; [|split].
  - intros hx h Hlen Hhex. exists (hex_decode hx).
    pose proof (hex_decode_length 20 hx Hlen Hhex) as H20.
    rewrite !serializeAddress_run, prefixless_0x, prefixless_sync, H20.
    auto.
  - intros s h H0 Hs. rewrite serializeAddress_run. unfold prefixlessAddress.
    now rewrite H0, Hs.
  - intros s p h Hp Hne. rewrite serializeAddress_run, Hp.
    destruct (Nat.eqb_spec (length (hex_decode p)) 20); [contradiction|easy].
Qed.

Lemma serializeAddress_prefixes_witness :
  exists bytes,
    length bytes = 20%nat
    /\ serializeAddress ("0x" +:+ "00112233445566778899aabbccddeeff01020304") []
       = (Ok (length ([] : list (list Z))), [] ++ [bytes])
    /\ serializeAddress ("sync:" +:+ "00112233445566778899aabbccddeeff01020304") []
       = (Ok (length ([] : list (list Z))), [] ++ [bytes]).
Proof.
  apply (proj1 serializeAddress_prefixes
           "00112233445566778899aabbccddeeff01020304" []); reflexivity.
Defined.

Lemma unhex_to_lower c : unhex (to_lower c) = unhex c.
Proof.
  destruct c as [[] [] [] [] [] [] [] []]; reflexivity.
Qed.

Lemma hex_decode_lowercase s : hex_decode (lowercase s) = hex_decode s.
Proof.
  enough (H : hex_decode (lowercase s) = hex_decode s
              /\ forall c, hex_decode (lowercase (String c s))
                           = hex_decode (String c s)) by apply H.
  induction s as [|a s [IH1 IH2]].
  - split; [reflexivity|]. intros c. reflexivity.
  - split; [apply IH2|]. intros c. cbn [lowercase hex_decode] in *.
    rewrite !unhex_to_lower, IH1. reflexivity.
Qed.

(** C10: hexadecimal digits are accepted in either case, and an address
    decodes to the same twenty bytes as its all-lowercase form. *)
Theorem serializeAddress_case_insensitive (hx : string) (h : heap) :
  String.length hx = 40%nat -> all_hex hx = true ->
  exists bytes,
    length bytes = 20%nat
    /\ serializeAddress ("0x" +:+ hx) h = (Ok (length h), h ++ [bytes])
    /\ serializeAddress (lowercase ("0x" +:+ hx)) h
       = (Ok (length h), h ++ [bytes])
    /\ serializeAddress ("sync:" +:+ hx) h = (Ok (length h), h ++ [bytes])
    /\ serializeAddress (lowercase ("sync:" +:+ hx)) h
       = (Ok (length h), h ++ [bytes]).
Proof.
  intros Hlen Hhex. exists (hex_decode hx).
  pose proof (hex_decode_length 20 hx Hlen Hhex) as H20.
  change (lowercase ("0x" +:+ hx)) with ("0x" +:+ lowercase hx).
  change (lowercase ("sync:" +:+ hx)) with ("sync:" +:+ lowercase hx).
  rewrite !serializeAddress_run, !prefixless_0x, !prefixless_sync.
  rewrite hex_decode_lowercase, H20. auto.
Qed.

Lemma serializeAddress_case_insensitive_witness :
  exists bytes,
    length bytes = 20%nat
    /\ serializeAddress ("0x" +:+ "00112233445566778899AaBbCcDdEeFf0A0b0C0d") []
       = (Ok (length ([] : list (list Z))), [] ++ [bytes])
    /\ serializeAddress
         (lowercase ("0x" +:+ "00112233445566778899AaBbCcDdEeFf0A0b0C0d")) []
       = (Ok (length ([] : list (list Z))), [] ++ [bytes])
    /\ serializeAddress ("sync:" +:+ "00112233445566778899AaBbCcDdEeFf0A0b0C0d") []
       = (Ok (length ([] : list (list Z))), [] ++ [bytes])
    /\ serializeAddress
         (lowercase ("sync:" +:+ "00112233445566778899AaBbCcDdEeFf0A0b0C0d")) []
       = (Ok (length ([] : list (list Z))), [] ++ [bytes]).
Proof.
  apply (serializeAddress_case_insensitive
           "00112233445566778899AaBbCcDdEeFf0A0b0C0d" []); reflexivity.
Defined.

(** ** Field serializers *)

Lemma extends_app (h t : heap) : extends h (h ++ t).
Proof. now exists t. Qed.

Lemma extends_lookup (h h' : heap) b (bs : list Z) :
  extends h h' -> h !! b = Some bs -> h' !! b = Some bs.
Proof. intros [t ->] E. now apply lookup_app_l_Some. Qed.

Lemma set_fresh (h : heap) bs i v :
  Buf.set (length h) i v (h ++ [bs])
  = (Ok tt, h ++ [<[i := JS.to_uint8 v]> bs]).
Proof.
  rewrite (set_run _ _ _ _ _ (lookup_fresh h bs)).
  now rewrite insert_app_r_alt, Nat.sub_diag by lia.
Qed.

Lemma serializeAddress_allocates s bytes (h : heap) :
  contents (serializeAddress s) = Some bytes ->
  allocates (serializeAddress s) h bytes /\ length bytes = 20%nat.
Proof.
  unfold contents, allocates. rewrite !serializeAddress_run.
  destruct (prefixlessAddress s) as [p|]; [|discriminate].
  destruct (Nat.eqb_spec (length (hex_decode p)) 20) as [H20|]; [|discriminate].
  cbn. intros [= <-]. split; [|easy].
  do 2 eexists. split; [reflexivity|]. split; [apply extends_app|apply lookup_fresh].
Qed.

Lemma serializeTokenId_run v (h : heap) :
  serializeTokenId v h
  = if v <? 0 then (Throw NegativeTokenId, h)
    else if v >=? MAX_NUMBER_OF_TOKENS then (Throw TokenIdTooBig, h)
    else (Ok (length h), h ++ [uint16_be v]).
Proof.
  unfold serializeTokenId.
  destruct (Z.ltb_spec v 0); [reflexivity|].
  destruct (Z.geb_spec v MAX_NUMBER_OF_TOKENS) as [|Hlt]; [reflexivity|].
  unfold MAX_NUMBER_OF_TOKENS in Hlt.
  unfold bind at 1, Buf.alloc, Buf.new, writeUInt16BE.
  destruct (Z.ltb_spec v 0); [lia|].
  destruct (Z.gtb_spec v 0xffff); [lia|]. cbn [orb replicate].
  unfold bind at 1. unfold bind at 1. rewrite set_fresh.
  cbn [Nat.add]. rewrite set_fresh. reflexivity.
Qed.

Lemma uint16_be_value v : 0 <= v < 2 ^ 16 -> BN.of_bytes_be (uint16_be v) = v.
Proof.
  intros Hv. unfold uint16_be, JS.to_uint8, BN.of_bytes_be. cbn [fold_left].
  rewrite Z.shiftr_div_pow2 by lia. change (2 ^ 8) with 256.
  rewrite (Z.mod_small (v / 256)).
  - pose proof (Z.div_mod v 256). lia.
  - split; [apply Z.div_pos; lia|apply Z.div_lt_upper_bound; lia].
Qed.

Lemma serializeTokenId_allocates v bytes (h : heap) :
  contents (serializeTokenId v) = Some bytes ->
  allocates (serializeTokenId v) h bytes
  /\ length bytes = 2%nat /\ BN.of_bytes_be bytes = v.
Proof.
  unfold contents, allocates. rewrite !serializeTokenId_run.
  destruct (Z.ltb_spec v 0); [discriminate|].
  destruct (Z.geb_spec v MAX_NUMBER_OF_TOKENS) as [|Hlt]; [discriminate|].
  unfold MAX_NUMBER_OF_TOKENS in Hlt.
  cbn. intros [= <-]. split; [|split; [reflexivity|apply uint16_be_value; lia]].
  do 2 eexists. split; [reflexivity|]. split; [apply extends_app|apply lookup_fresh].
Qed.

Lemma serializeNonce_run v (h : heap) :
  serializeNonce v h
  = if v <? 0 then (Throw NegativeNonce, h)
    else if v >? 0xffffffff then (Throw ValueOutOfRange, h ++ [[0; 0; 0; 0]])
    else (Ok (length h), h ++ [uint32_be v]).
Proof.
  unfold serializeNonce.
  destruct (Z.ltb_spec v 0); [reflexivity|].
  unfold bind at 1, Buf.alloc, Buf.new, writeUInt32BE.
  destruct (Z.ltb_spec v 0); [lia|].
  destruct (Z.gtb_spec v 0xffffffff); [reflexivity|]. cbn [orb replicate].
  do 4 unfold bind at 1. cbn [Nat.add]. rewrite !set_fresh. reflexivity.
Qed.

Lemma uint32_be_value v : 0 <= v < 2 ^ 32 -> BN.of_bytes_be (uint32_be v) = v.
Proof.
  intros Hv. unfold uint32_be, JS.to_uint8, BN.of_bytes_be. cbn [fold_left].
  rewrite !Z.shiftr_div_pow2 by lia. change (2 ^ 8) with 256.
  pose proof (Z.div_mod v 256).
  pose proof (Z.div_mod (v / 256) 256).
  pose proof (Z.div_mod (v / 256 / 256) 256).
  rewrite (Z.mod_small (v / 256 / 256 / 256)).
  - lia.
  - split; [repeat apply Z.div_pos; lia|].
    repeat apply Z.div_lt_upper_bound; lia.
Qed.

Lemma serializeNonce_allocates v bytes (h : heap) :
  contents (serializeNonce v) = Some bytes ->
  allocates (serializeNonce v) h bytes
  /\ length bytes = 4%nat /\ BN.of_bytes_be bytes = v.
Proof.
  unfold contents, allocates. rewrite !serializeNonce_run.
  destruct (Z.ltb_spec v 0); [discriminate|].
  destruct (Z.gtb_spec v 0xffffffff); [discriminate|].
  cbn. intros [= <-]. split; [|split; [reflexivity|apply uint32_be_value; lia]].
  do 2 eexists. split; [reflexivity|]. split; [apply extends_app|apply lookup_fresh].
Qed.

Lemma lookup_packed (h : heap) (x : list Z) :
  (h ++ pack_trail x ++ pack_trail x) !! (length h + 6)%nat = Some x.
Proof.
  rewrite lookup_app_r by lia.
  now replace (length h + 6 - length h)%nat with 6%nat by lia.
Qed.

Lemma packChecked_allocates k v bytes (h : heap) :
  contents (packChecked k v) = Some bytes ->
  allocates (packChecked k v) h bytes
  /\ Z.of_nat (length bytes) * 8 = mantissa_width k + exponent_width k.
Proof.
  destruct (kind_widths k) as (Heb & Hmb & Hal & _).
  unfold contents, allocates.
  rewrite packChecked_pack_checked, !pack_checked_run by lia.
  destruct (float_fields v _ _ 10) as [[m e]|]; [|discriminate].
  cbn zeta. destruct (_ =? v); [|discriminate].
  change (length []) with 0%nat. change (0 + 6)%nat with (length ([] : heap) + 6)%nat.
  rewrite lookup_packed. intros [= <-]. split.
  - do 2 eexists. split; [reflexivity|].
    split; [apply extends_app|apply lookup_packed].
  - rewrite float_bytes_length.
    now destruct (widths_aligned _ _ (proj1 Heb) Hmb Hal).
Qed.

(** *** The full-width amount *)

Lemma of_bytes_be_zeros k : BN.of_bytes_be (replicate k 0) = 0.
Proof. induction k as [|k IH]; [reflexivity|exact IH]. Qed.

Lemma of_bytes_be_padded k bs :
  BN.of_bytes_be (replicate k 0 ++ bs) = BN.of_bytes_be bs.
Proof.
  unfold BN.of_bytes_be. rewrite fold_left_app.
  change (fold_left _ (replicate k 0) 0) with (BN.of_bytes_be (replicate k 0)).
  now rewrite of_bytes_be_zeros.
Qed.

Lemma bytes_be_loop_spec fuel : forall q acc,
  0 <= q < 256 ^ Z.of_nat fuel ->
  (fuel <> O -> 256 ^ (Z.of_nat fuel - 1) <= q) ->
  exists digits,
    BN.bytes_be_loop fuel q acc = digits ++ acc
    /\ length digits = fuel /\ BN.of_bytes_be digits = q.
Proof.
  induction fuel as [|fuel IH]; intros q acc Hq Hlow.
  - exists []. change (256 ^ Z.of_nat 0) with 1 in Hq.
    repeat split. unfold BN.of_bytes_be. simpl. lia.
  - cbn [BN.bytes_be_loop].
    assert (Hpos : 0 < 256 ^ Z.of_nat fuel) by (apply Z.pow_pos_nonneg; lia).
    specialize (Hlow ltac:(lia)).
    replace (Z.of_nat (S fuel) - 1) with (Z.of_nat fuel) in Hlow by lia.
    rewrite Nat2Z.inj_succ, Z.pow_succ_r in Hq by lia.
    destruct (Z.eqb_spec q 0) as [|_]; [lia|].
    rewrite Z.shiftr_div_pow2 by lia. change (2 ^ 8) with 256.
    change 255 with (Z.ones 8). rewrite Z.land_ones by lia. change (2 ^ 8) with 256.
    destruct (IH (q / 256) (q mod 256 :: acc)) as (digits & E & Hlen & Hval).
    + split; [apply Z.div_pos; lia|apply Z.div_lt_upper_bound; lia].
    + intros Hf. apply Z.div_le_lower_bound; [lia|].
      replace (Z.of_nat fuel) with (Z.succ (Z.of_nat fuel - 1)) in Hlow by lia.
      rewrite Z.pow_succ_r in Hlow by lia. lia.
    + exists (digits ++ [q mod 256]). rewrite E, <- app_assoc. split; [reflexivity|].
      rewrite length_app, of_bytes_be_snoc, Hval. cbn [length].
      pose proof (Z.div_mod q 256). split; lia.
Qed.

Lemma byteLength_bounds a :
  0 <= Z.abs a < 256 ^ Z.of_nat (BN.byteLength a)
  /\ (BN.byteLength a <> O ->
      256 ^ (Z.of_nat (BN.byteLength a) - 1) <= Z.abs a).
Proof.
  unfold BN.byteLength. destruct (Z.eqb_spec a 0) as [->|Hne]; [easy|].
  pose proof (Z.log2_nonneg (Z.abs a)) as HL.
  destruct (Z.log2_spec (Z.abs a) ltac:(lia)) as [Hlo Hhi].
  set (L := Z.log2 (Z.abs a)) in *.
  pose proof (Z.div_mod (L + 8) 8 ltac:(lia)) as Hdm.
  pose proof (Z.mod_pos_bound (L + 8) 8 ltac:(lia)) as Hr.
  set (K := (L + 8) / 8) in *.
  rewrite Z2Nat.id by lia.
  change 256 with (2 ^ 8). rewrite <- !Z.pow_mul_r by lia.
  split; [split; [lia|]|intros _].
  - apply Z.lt_le_trans with (2 ^ Z.succ L); [easy|]. apply Z.pow_le_mono_r; lia.
  - apply Z.le_trans with (2 ^ L); [|easy]. apply Z.pow_le_mono_r; lia.
Qed.

Lemma serializeAmountFull_allocates a bytes (h : heap) :
  contents (serializeAmountFull a) = Some bytes ->
  allocates (serializeAmountFull a) h bytes
  /\ length bytes = 16%nat /\ BN.of_bytes_be bytes = Z.abs a.
Proof.
  unfold contents, allocates, serializeAmountFull, toArrayLike_be. cbn [Nat.eqb].
  destruct (Nat.ltb_spec 16 (BN.byteLength a)) as [|Hle]; [discriminate|].
  unfold Buf.new. cbn [length app]. change ([?x] !! 0%nat) with (Some x).
  intros [= <-].
  destruct (byteLength_bounds a) as [Hq Hlow].
  destruct (bytes_be_loop_spec _ _ [] Hq Hlow) as (digits & -> & Hlen & Hval).
  rewrite app_nil_r. split; [|split].
  - do 2 eexists. split; [reflexivity|].
    split; [apply extends_app|apply lookup_fresh].
  - rewrite length_app, length_replicate, Hlen. lia.
  - now rewrite of_bytes_be_padded.
Qed.

(** *** Concatenation and signing *)

Lemma map_m_bytes_run (h : heap) bufs parts :
  Forall2 (fun b bs => h !! b = Some bs) bufs parts ->
  map_m Buf.bytes bufs h = (Ok parts, h).
Proof.
  induction 1 as [|b bs bufs parts E _ IH]; [reflexivity|].
  cbn [map_m]. rewrite (bind_ok _ _ _ _ _ (bytes_run _ _ _ E)).
  now rewrite (bind_ok _ _ _ _ _ IH).
Qed.

Lemma concat_run (h : heap) bufs parts :
  Forall2 (fun b bs => h !! b = Some bs) bufs parts ->
  Buf.concat bufs h = (Ok (length h), h ++ [List.concat parts]).
Proof.
  intros F. unfold Buf.concat.
  now rewrite (bind_ok _ _ _ _ _ (map_m_bytes_run _ _ _ F)).
Qed.

(** *** The serialized fields are bytes *)

Lemma unhex_range c n : unhex c = Some n -> 0 <= n < 16.
Proof.
  unfold unhex. set (code := Z.of_nat (nat_of_ascii c)).
  destruct (Z.leb_spec 48 code), (Z.leb_spec code 57); cbn [andb];
    try (intros [= <-]; lia);
  destruct (Z.leb_spec 97 code), (Z.leb_spec code 102); cbn [andb];
    try (intros [= <-]; lia);
  destruct (Z.leb_spec 65 code), (Z.leb_spec code 70); cbn [andb];
    try (intros [= <-]; lia); discriminate.
Qed.

Lemma hex_decode_bytes s : Forall is_byte (hex_decode s).
Proof.
  enough (H : Forall is_byte (hex_decode s)
              /\ forall c, Forall is_byte (hex_decode (String c s))) by apply H.
  induction s as [|a s [IH1 IH2]].
  - split; [constructor|]. intros c. constructor.
  - split; [apply IH2|]. intros c. cbn [hex_decode].
    destruct (unhex c) as [hi|] eqn:Ec; [|constructor].
    destruct (unhex a) as [lo|] eqn:Ea; [|constructor].
    apply unhex_range in Ec, Ea. constructor; [unfold is_byte; lia|exact IH1].
Qed.

Lemma bytes_be_loop_bytes fuel : forall q acc,
  Forall is_byte acc -> Forall is_byte (BN.bytes_be_loop fuel q acc).
Proof.
  induction fuel as [|fuel IH]; intros q acc F; cbn [BN.bytes_be_loop]; [exact F|].
  destruct (q =? 0); [exact F|]. apply IH. constructor; [|exact F].
  change 255 with (Z.ones 8). rewrite Z.land_ones by lia.
  unfold is_byte. change (2 ^ 8) with 256. apply Z.mod_pos_bound. lia.
Qed.

Lemma zeros_are_bytes k : Forall is_byte (replicate k 0).
Proof. induction k; constructor; [unfold is_byte; lia|assumption]. Qed.

Lemma serializeAddress_contents_bytes s bytes :
  contents (serializeAddress s) = Some bytes -> Forall is_byte bytes.
Proof.
  unfold contents. rewrite serializeAddress_run.
  destruct (prefixlessAddress s) as [p|]; [|discriminate].
  destruct (_ =? 20)%nat; [|discriminate].
  cbn. intros [= <-]. apply hex_decode_bytes.
Qed.

Lemma serializeTokenId_contents_bytes v bytes :
  contents (serializeTokenId v) = Some bytes -> Forall is_byte bytes.
Proof.
  unfold contents. rewrite serializeTokenId_run.
  destruct (v <? 0); [discriminate|]. destruct (v >=? _); [discriminate|].
  cbn. intros [= <-]. repeat constructor; apply to_uint8_is_byte.
Qed.

Lemma serializeNonce_contents_bytes v bytes :
  contents (serializeNonce v) = Some bytes -> Forall is_byte bytes.
Proof.
  unfold contents. rewrite serializeNonce_run.
  destruct (v <? 0); [discriminate|]. destruct (v >? _); [discriminate|].
  cbn. intros [= <-]. repeat constructor; apply to_uint8_is_byte.
Qed.

Lemma serializeAmountFull_contents_bytes a bytes :
  contents (serializeAmountFull a) = Some bytes -> Forall is_byte bytes.
Proof.
  unfold contents, serializeAmountFull, toArrayLike_be. cbn [Nat.eqb].
  destruct (_ <? _)%nat; [discriminate|].
  unfold Buf.new. cbn [length app]. change ([?x] !! 0%nat) with (Some x).
  intros [= <-]. apply Forall_app. split.
  - apply zeros_are_bytes.
  - apply bytes_be_loop_bytes. constructor.
Qed.

Lemma packChecked_contents_bytes k v bytes :
  contents (packChecked k v) = Some bytes -> Forall is_byte bytes.
Proof.
  destruct (kind_widths k) as (Heb & Hmb & Hal & _).
  unfold contents. rewrite packChecked_pack_checked, pack_checked_run by lia.
  destruct (float_fields v _ _ 10) as [[m e]|]; [|discriminate].
  cbn zeta. destruct (_ =? v); [|discriminate].
  change (length []) with 0%nat.
  change (0 + 6)%nat with (length ([] : list (list Z)) + 6)%nat.
  rewrite lookup_packed. intros [= <-]. apply packed_bytes_are_bytes.
Qed.

(** ** The signed messages *)

Ltac lift_lookup :=
  first [ eassumption
        | apply lookup_fresh
        | eapply extends_lookup; [eassumption | lift_lookup] ].

Section Layout.

Variable Signature : Type.
Variable signTransactionBytes : BN.t -> list Z -> Signature.

(** C4: when every field serializes, [signSyncTransfer] signs the 54 bytes
    tag 5, from (20), to (20), token id (2, big-endian), packed amount (5),
    packed fee (2), nonce (4, big-endian), and [signSyncWithdraw] signs the
    65 bytes tag 3, account (20), destination (20), token id (2), full
    amount (16, big-endian; bn.js writes the magnitude), packed fee (2),
    nonce (4).  Every element of the message is a byte, so the length and
    the big-endian value fix the token id, nonce and full amount fields. *)
Theorem canonical_message_layout (this : Signer) (t : TxFields) (h : heap)
    (from to token fee nonce : list Z) :
  contents (serializeAddress (tx_from t)) = Some from ->
  contents (serializeAddress (tx_to t)) = Some to ->
  contents (serializeTokenId (tx_tokenId t)) = Some token ->
  contents (serializeFeePacked (tx_fee t)) = Some fee ->
  contents (serializeNonce (tx_nonce t)) = Some nonce ->
  (length from = 20 /\ length to = 20 /\ length token = 2
   /\ length fee = 2 /\ length nonce = 4)%nat
  /\ (Forall is_byte from /\ Forall is_byte to /\ Forall is_byte token
      /\ Forall is_byte fee /\ Forall is_byte nonce)
  /\ BN.of_bytes_be token = tx_tokenId t
  /\ BN.of_bytes_be nonce = tx_nonce t
  /\ (forall packed,
        contents (serializeAmountPacked (tx_amount t)) = Some packed ->
        let msg := 5 :: from ++ to ++ token ++ packed ++ fee ++ nonce in
        length packed = 5%nat /\ Forall is_byte packed
        /\ length msg = 54%nat /\ Forall is_byte msg
        /\ exists tx h',
             signSyncTransfer Signature signTransactionBytes this t h
             = (Ok tx, h')
             /\ signature Signature tx
                = signTransactionBytes (privateKey this) msg)
  /\ (forall full,
        contents (serializeAmountFull (tx_amount t)) = Some full ->
        let msg := 3 :: from ++ to ++ token ++ full ++ fee ++ nonce in
        length full = 16%nat /\ Forall is_byte full
        /\ BN.of_bytes_be full = Z.abs (tx_amount t)
        /\ length msg = 65%nat /\ Forall is_byte msg
        /\ exists tx h',
             signSyncWithdraw Signature signTransactionBytes this t h
             = (Ok tx, h')
             /\ signature Signature tx
                = signTransactionBytes (privateKey this) msg).
Proof.
  intros Hfrom Hto Htoken Hfee Hnonce.
  pose proof (lookup_fresh h [5]) as L0.
  pose proof (lookup_fresh h [3]) as L0'.
  destruct (serializeAddress_allocates _ _ [] Hfrom) as [_ Hlfrom].
  destruct (serializeAddress_allocates _ _ [] Hto) as [_ Hlto].
  destruct (serializeTokenId_allocates _ _ [] Htoken) as (_ & Hltoken & Hvtoken).
  destruct (packChecked_allocates Fee _ _ [] Hfee) as [_ Hlfee].
  destruct (serializeNonce_allocates _ _ [] Hnonce) as (_ & Hlnonce & Hvnonce).
  change (mantissa_width Fee + exponent_width Fee) with 16 in Hlfee.
  pose proof (serializeAddress_contents_bytes _ _ Hfrom) as Bfrom.
  pose proof (serializeAddress_contents_bytes _ _ Hto) as Bto.
  pose proof (serializeTokenId_contents_bytes _ _ Htoken) as Btoken.
  pose proof (packChecked_contents_bytes Fee _ _ Hfee) as Bfee.
  pose proof (serializeNonce_contents_bytes _ _ Hnonce) as Bnonce.
  split; [repeat split; (assumption || lia)|].
  split; [repeat split; assumption|].
  split; [assumption|]. split; [assumption|]. split.
  - intros packed Hpacked msg.
    destruct (packChecked_allocates Amount _ _ [] Hpacked) as [_ Hlp].
    change (mantissa_width Amount + exponent_width Amount) with 40 in Hlp.
    pose proof (packChecked_contents_bytes Amount _ _ Hpacked) as Bpacked.
    split; [lia|]. split; [assumption|]. split.
    { subst msg. cbn [length]. rewrite !length_app. lia. }
    split.
    { subst msg. constructor; [unfold is_byte; lia|].
      repeat (apply Forall_app; split; [assumption|]). assumption. }
    destruct (serializeAddress_allocates _ _ (h ++ [[5]]) Hfrom)
      as [(b1 & h1 & E1 & X1 & L1) _].
    destruct (serializeAddress_allocates _ _ h1 Hto)
      as [(b2 & h2 & E2 & X2 & L2) _].
    destruct (serializeTokenId_allocates _ _ h2 Htoken)
      as [(b3 & h3 & E3 & X3 & L3) _].
    destruct (packChecked_allocates Amount _ _ h3 Hpacked)
      as [(b4 & h4 & E4 & X4 & L4) _].
    destruct (packChecked_allocates Fee _ _ h4 Hfee)
      as [(b5 & h5 & E5 & X5 & L5) _].
    destruct (serializeNonce_allocates _ _ h5 Hnonce)
      as [(b6 & h6 & E6 & X6 & L6) _].
    do 2 eexists. unfold signSyncTransfer, bind.
    cbn [Buf.new]. unfold serializeAmountPacked, serializeFeePacked.
    cbn [packChecked] in E4, E5. rewrite E1, E2, E3, E4, E5, E6.
    erewrite concat_run.
    2:{ repeat (apply List.Forall2_cons; [lift_lookup|]). apply List.Forall2_nil. }
    unfold sign, bind. rewrite (bytes_run _ _ _ (lookup_fresh _ _)).
    unfold ret. split; [reflexivity|]. cbn [signature List.concat].
    subst msg. now rewrite app_nil_r.
  - intros full Hfull msg.
    destruct (serializeAmountFull_allocates _ _ [] Hfull) as (_ & Hlf & Hvf).
    pose proof (serializeAmountFull_contents_bytes _ _ Hfull) as Bfull.
    split; [assumption|]. split; [assumption|]. split; [assumption|]. split.
    { subst msg. cbn [length]. rewrite !length_app. lia. }
    split.
    { subst msg. constructor; [unfold is_byte; lia|].
      repeat (apply Forall_app; split; [assumption|]). assumption. }
    destruct (serializeAddress_allocates _ _ (h ++ [[3]]) Hfrom)
      as [(b1 & h1 & E1 & X1 & L1) _].
    destruct (serializeAddress_allocates _ _ h1 Hto)
      as [(b2 & h2 & E2 & X2 & L2) _].
    destruct (serializeTokenId_allocates _ _ h2 Htoken)
      as [(b3 & h3 & E3 & X3 & L3) _].
    destruct (serializeAmountFull_allocates _ _ h3 Hfull)
      as [(b4 & h4 & E4 & X4 & L4) _].
    destruct (packChecked_allocates Fee _ _ h4 Hfee)
      as [(b5 & h5 & E5 & X5 & L5) _].
    destruct (serializeNonce_allocates _ _ h5 Hnonce)
      as [(b6 & h6 & E6 & X6 & L6) _].
    do 2 eexists. unfold signSyncWithdraw, bind.
    cbn [Buf.new]. unfold serializeFeePacked.
    cbn [packChecked] in E5. rewrite E1, E2, E3, E4, E5, E6.
    erewrite concat_run.
    2:{ repeat (apply List.Forall2_cons; [lift_lookup|]). apply List.Forall2_nil. }
    unfold sign, bind. rewrite (bytes_run _ _ _ (lookup_fresh _ _)).
    unfold ret. split; [reflexivity|]. cbn [signature List.concat].
    subst msg. now rewrite app_nil_r.
Qed.

End Layout.

Lemma canonical_message_layout_witness :
  exists tx h',
    signSyncTransfer (list Z) (fun _ msg => msg) example_signer example_fields []
    = (Ok tx, h')
    /\ signature (list Z) tx
       = 5 :: [0; 17; 34; 51; 68; 85; 102; 119; 136; 153;
               170; 187; 204; 221; 238; 255; 1; 2; 3; 4]
           ++ [255; 238; 221; 204; 187; 170; 153; 136; 119; 102;
               85; 68; 51; 34; 17; 0; 160; 176; 192; 208]
           ++ [0; 1] ++ [0; 0; 0; 125; 0] ++ [255; 227] ++ [0; 0; 0; 7].
Proof.
  destruct (canonical_message_layout (list Z) (fun _ msg => msg)
              example_signer example_fields [] _ _ _ _ _
              eq_refl eq_refl eq_refl eq_refl eq_refl)
    as (_ & _ & _ & _ & Htransfer & _).
  destruct (Htransfer [0; 0; 0; 125; 0] eq_refl) as (_ & _ & _ & _ & Hsigned).
  exact Hsigned.
Defined.


(** * Further properties of the serializers and the codec *)

(** ** Identifier and nonce bounds *)

Lemma uint16_be_bytes v : Forall is_byte (uint16_be v).
Proof. repeat constructor; apply to_uint8_is_byte. Qed.

Lemma uint32_be_bytes v : Forall is_byte (uint32_be v).
Proof. repeat constructor; apply to_uint8_is_byte. Qed.

(** X1: [serializeTokenId] accepts exactly the ids in [0, 4096): below it
    throws the negative-id error, from 4096 on the too-big error, and inside
    the range it returns a new buffer of two bytes that read big-endian give
    the id back, leaving the rest of the heap as it was. *)
Theorem serializeTokenId_bounds (tokenId : Z) (h : heap) :
  (tokenId < 0 -> serializeTokenId tokenId h = (Throw NegativeTokenId, h))
  /\ (4096 <= tokenId -> serializeTokenId tokenId h = (Throw TokenIdTooBig, h))
  /\ (0 <= tokenId < 4096 ->
      exists bytes,
        serializeTokenId tokenId h = (Ok (length h), h ++ [bytes])
        /\ length bytes = 2%nat /\ Forall is_byte bytes
        /\ BN.of_bytes_be bytes = tokenId).
Proof.
  rewrite serializeTokenId_run. unfold MAX_NUMBER_OF_TOKENS.
  destruct (Z.ltb_spec tokenId 0); destruct (Z.geb_spec tokenId 4096);
    repeat split; intros; try lia; try reflexivity.
  exists (uint16_be tokenId). repeat split.
  - apply uint16_be_bytes.
  - apply uint16_be_value. lia.
Qed.

(** X2: [serializeNonce] throws the negative-nonce error below zero and
    Node's range error above [2^32 - 1]; in between it returns a new buffer
    of four bytes that read big-endian give the nonce back. *)
Theorem serializeNonce_bounds (nonce : Z) (h : heap) :
  (nonce < 0 -> serializeNonce nonce h = (Throw NegativeNonce, h))
  /\ (2 ^ 32 <= nonce ->
      fst (serializeNonce nonce h) = Throw ValueOutOfRange)
  /\ (0 <= nonce < 2 ^ 32 ->
      exists bytes,
        serializeNonce nonce h = (Ok (length h), h ++ [bytes])
        /\ length bytes = 4%nat /\ Forall is_byte bytes
        /\ BN.of_bytes_be bytes = nonce).
Proof.
  rewrite serializeNonce_run.
  destruct (Z.ltb_spec nonce 0); destruct (Z.gtb_spec nonce 0xffffffff);
    repeat split; intros; try lia; try reflexivity.
  exists (uint32_be nonce). repeat split.
  - apply uint32_be_bytes.
  - apply uint32_be_value. lia.
Qed.

Lemma serializeAccountId_run v (h : heap) :
  serializeAccountId v h
  = if v <? 0 then (Throw NegativeAccountId, h)
    else if v >=? 2 ^ 24 then (Throw AccountIdTooBig, h)
    else (Ok (S (length h)), h ++ [uint32_be v; drop 1 (uint32_be v)]).
Proof.
  unfold serializeAccountId. change MAX_NUMBER_OF_ACCOUNTS with (2 ^ 24).
  destruct (Z.ltb_spec v 0); [reflexivity|].
  destruct (Z.geb_spec v (2 ^ 24)) as [|Hlt]; [reflexivity|].
  unfold bind at 1, Buf.alloc, Buf.new, writeUInt32BE.
  destruct (Z.ltb_spec v 0); [lia|].
  destruct (Z.gtb_spec v 0xffffffff); [lia|]. cbn [orb replicate].
  do 4 unfold bind at 1. cbn [Nat.add]. rewrite !set_fresh.
  unfold slice_of_local.
  rewrite (bind_ok _ _ _ _ _ (bytes_run _ _ _ (lookup_fresh h _))).
  unfold Buf.new. rewrite length_app, <- app_assoc. cbn [length app].
  f_equal. f_equal. lia.
Qed.

Lemma uint32_be_top_byte v :
  0 <= v < 2 ^ 24 ->
  BN.of_bytes_be (drop 1 (uint32_be v)) = v.
Proof.
  intros Hv. rewrite <- (uint32_be_value v) at 2 by lia.
  unfold uint32_be. cbn [drop]. unfold BN.of_bytes_be. cbn [fold_left].
  replace (JS.to_uint8 (Z.shiftr (Z.shiftr (Z.shiftr v 8) 8) 8)) with 0; [reflexivity|].
  rewrite !Z.shiftr_div_pow2 by lia. rewrite !Z.div_div by lia.
  rewrite Z.div_small by (change (2 ^ 8 * 2 ^ 8 * 2 ^ 8) with (2 ^ 24); lia).
  reflexivity.
Qed.

(** X3: [serializeAccountId] accepts exactly the ids in [0, 2^24), with the
    negative-id and too-big errors outside, and returns three bytes that
    read big-endian give the id back: the byte cut off the front of the
    four written is zero. *)
Theorem serializeAccountId_bounds (accountId : Z) (h : heap) :
  (accountId < 0 ->
   serializeAccountId accountId h = (Throw NegativeAccountId, h))
  /\ (2 ^ 24 <= accountId ->
      serializeAccountId accountId h = (Throw AccountIdTooBig, h))
  /\ (0 <= accountId < 2 ^ 24 ->
      exists b h' bytes,
        serializeAccountId accountId h = (Ok b, h')
        /\ h' !! b = Some bytes
        /\ length bytes = 3%nat /\ Forall is_byte bytes
        /\ BN.of_bytes_be bytes = accountId
        /\ forall l, (l < length h)%nat -> h' !! l = h !! l).
Proof.
  rewrite serializeAccountId_run.
  destruct (Z.ltb_spec accountId 0); destruct (Z.geb_spec accountId (2 ^ 24));
    repeat split; intros; try lia; try reflexivity.
  exists (S (length h)). eexists. exists (drop 1 (uint32_be accountId)).
  split; [reflexivity|]. split.
  { rewrite lookup_app_r by lia.
    now replace (S (length h) - length h)%nat with 1%nat by lia. }
  split; [reflexivity|]. split.
  { pose proof (uint32_be_bytes accountId) as F. inversion F. assumption. }
  split; [apply uint32_be_top_byte; lia|].
  intros l Hl. now rewrite lookup_app_l.
Qed.

(** ** The full-width amount *)

Lemma byteLength_le_16 a :
  (BN.byteLength a <= 16)%nat <-> Z.abs a < 2 ^ 128.
Proof.
  destruct (byteLength_bounds a) as [[_ Hhi] Hlo].
  change (2 ^ 128) with (256 ^ 16). split; intros H.
  - apply Z.lt_le_trans with (256 ^ Z.of_nat (BN.byteLength a)); [easy|].
    apply Z.pow_le_mono_r; lia.
  - destruct (Nat.le_gt_cases (BN.byteLength a) 16) as [|Hgt]; [easy|exfalso].
    specialize (Hlo ltac:(lia)).
    assert (256 ^ 16 <= 256 ^ (Z.of_nat (BN.byteLength a) - 1))
      by (apply Z.pow_le_mono_r; lia).
    lia.
Qed.

(** X4: [serializeAmountFull] throws bn.js's length error exactly when the
    magnitude of the amount needs more than sixteen bytes; otherwise it
    returns sixteen elements, each of them a byte, that read big-endian give
    the magnitude.  The sign is not written: an amount and its negation
    serialize alike. *)
Theorem serializeAmountFull_bounds (amount : Z) (h : heap) :
  (2 ^ 128 <= Z.abs amount ->
   serializeAmountFull amount h = (Throw ByteArrayTooLong, h))
  /\ (Z.abs amount < 2 ^ 128 ->
      exists bytes,
        serializeAmountFull amount h = (Ok (length h), h ++ [bytes])
        /\ length bytes = 16%nat /\ Forall is_byte bytes
        /\ BN.of_bytes_be bytes = Z.abs amount)
  /\ serializeAmountFull (- amount) h = serializeAmountFull amount h.
Proof.
  pose proof (byteLength_le_16 amount) as H16.
  split; [|split].
  - intros Hbig. unfold serializeAmountFull, toArrayLike_be. cbn [Nat.eqb].
    destruct (Nat.ltb_spec 16 (BN.byteLength amount)); [reflexivity|].
    apply H16 in H. lia.
  - intros Hsmall. apply H16 in Hsmall.
    unfold serializeAmountFull, toArrayLike_be. cbn [Nat.eqb].
    destruct (Nat.ltb_spec 16 (BN.byteLength amount)); [lia|].
    destruct (byteLength_bounds amount) as [Hq Hlow].
    pose proof (bytes_be_loop_bytes (BN.byteLength amount) (Z.abs amount) []
                  (List.Forall_nil _)) as Hbytes.
    destruct (bytes_be_loop_spec _ _ [] Hq Hlow) as (digits & Hdigits & Hlen & Hval).
    rewrite Hdigits in *. rewrite app_nil_r in *.
    eexists. split; [reflexivity|]. split; [|split].
    + rewrite length_app, length_replicate, Hlen. lia.
    + apply Forall_app. split; [apply zeros_are_bytes|exact Hbytes].
    + now rewrite of_bytes_be_padded.
  - unfold serializeAmountFull, toArrayLike_be, BN.byteLength.
    rewrite Z.abs_opp.
    replace (- amount =? 0) with (amount =? 0); [reflexivity|].
    destruct (Z.eqb_spec amount 0), (Z.eqb_spec (- amount) 0); lia.
Qed.

(** ** Hexadecimal text and the signer's own address *)

Lemma unhex_hex_digit n : 0 <= n < 16 -> unhex (hex_digit n) = Some n.
Proof.
  intros Hn. rewrite <- (Z2Nat.id n) by lia.
  assert (Hk : (Z.to_nat n < 16)%nat) by lia.
  revert Hk. generalize (Z.to_nat n) as k. intros k Hk.
  do 16 (destruct k as [|k]; [reflexivity|]). lia.
Qed.

Lemma hex_decode_encode bytes :
  Forall is_byte bytes -> hex_decode (hex_encode bytes) = bytes.
Proof.
  induction 1 as [|b bs Hb _ IH]; [reflexivity|].
  unfold is_byte in Hb. cbn [hex_encode hex_decode].
  rewrite !unhex_hex_digit, IH.
  - f_equal. pose proof (Z.div_mod b 16). lia.
  - apply Z.mod_pos_bound. lia.
  - split; [apply Z.div_pos; lia|apply Z.div_lt_upper_bound; lia].
Qed.

Lemma sync_prefix_not_0x a :
  startsWith a "sync:" = true -> startsWith a "0x" = false.
Proof.
  destruct a as [|c a]; [discriminate|]. unfold startsWith. cbn [String.prefix].
  destruct (ascii_dec "s" c) as [<-|]; [reflexivity|discriminate].
Qed.

Lemma prefixless_of_sync a :
  startsWith a "sync:" = true -> prefixlessAddress a = Some (substr 5 a).
Proof.
  intros H. unfold prefixlessAddress. now rewrite (sync_prefix_not_0x a H), H.
Qed.

(** X7: [syncToLegacyAddress] throws unless the address starts with
    ["sync:"]; otherwise it returns an address starting with ["0x"] that
    [serializeAddress] treats exactly as the original: the same bytes or the
    same error, on any heap. *)
Theorem syncToLegacyAddress_preserves_bytes (a : string) (h : heap) :
  (startsWith a "sync:" = false ->
   syncToLegacyAddress a h = (Throw NotSyncAddress, h))
  /\ (startsWith a "sync:" = true ->
      exists legacy,
        syncToLegacyAddress a h = (Ok legacy, h)
        /\ startsWith legacy "0x" = true
        /\ forall h' : heap, serializeAddress legacy h' = serializeAddress a h').
Proof.
  unfold syncToLegacyAddress. split; intros H; rewrite H; [reflexivity|].
  exists ("0x" +:+ substr 5 a). split; [reflexivity|]. split.
  - now destruct (substr 5 a).
  - intros h'. rewrite !serializeAddress_run.
    now rewrite prefixless_0x, (prefixless_of_sync a H).
Qed.

Ltac find_fresh :=
  first [ apply lookup_fresh | apply lookup_app_l_Some; find_fresh ].

Section OwnAddress.

Variable Signature : Type.
Variable signTransactionBytes : BN.t -> list Z -> Signature.
Variable Point : Type.
Variable privateKeyToPublicKey : BN.t -> Point.
Variable pubkeyToAddress : Point -> list Z.

Lemma address_run (this : Signer) (h : heap) :
  address Point privateKeyToPublicKey pubkeyToAddress this h
  = (Ok ("sync:" +:+
         hex_encode (pubkeyToAddress (publicKey Point privateKeyToPublicKey this))),
     h ++ [pubkeyToAddress (publicKey Point privateKeyToPublicKey this)]).
Proof.
  unfold address, bind at 1. cbn [Buf.new].
  now rewrite (bind_ok _ _ _ _ _ (bytes_run _ _ _ (lookup_fresh h _))).
Qed.

(** X5: the text returned by [address()] serializes back to the bytes it was
    rendered from: when the hashed public key is twenty bytes,
    [serializeAddress(this.address())] returns a buffer holding exactly those
    bytes, and for any other length it throws the length error. *)
Theorem own_address_round_trip (this : Signer) (h : heap) :
  Forall is_byte (pubkeyToAddress (publicKey Point privateKeyToPublicKey this)) ->
  exists own h1,
    address Point privateKeyToPublicKey pubkeyToAddress this h = (Ok own, h1)
    /\ (length (pubkeyToAddress (publicKey Point privateKeyToPublicKey this))
        = 20%nat ->
        exists b h2,
          serializeAddress own h1 = (Ok b, h2)
          /\ h2 !! b
             = Some (pubkeyToAddress (publicKey Point privateKeyToPublicKey this)))
    /\ (length (pubkeyToAddress (publicKey Point privateKeyToPublicKey this))
        <> 20%nat ->
        fst (serializeAddress own h1) = Throw BadAddressLength).
Proof.
  intros Hbytes. do 2 eexists. split; [apply address_run|].
  rewrite serializeAddress_run, prefixless_sync, hex_decode_encode by assumption.
  split; intros Hlen.
  - rewrite Hlen. cbn [Nat.eqb]. do 2 eexists. split; [reflexivity|].
    apply lookup_fresh.
  - now destruct (Nat.eqb_spec (length (pubkeyToAddress
        (publicKey Point privateKeyToPublicKey this))) 20).
Qed.

(** X6: with a twenty-byte hashed public key and a nonce in [0, 2^32),
    [signSyncCloseAccount] signs the 25 bytes tag 4, the signer's own address
    bytes and the nonce as [serializeNonce] writes it (four bytes, big-endian),
    and reports the ["sync:"] text of that address as the account. *)
Theorem close_account_layout (this : Signer) (nonce : Z) (h : heap) :
  Forall is_byte (pubkeyToAddress (publicKey Point privateKeyToPublicKey this)) ->
  length (pubkeyToAddress (publicKey Point privateKeyToPublicKey this)) = 20%nat ->
  0 <= nonce < 2 ^ 32 ->
  exists tx h' nonceBytes,
    signSyncCloseAccount Signature signTransactionBytes
      Point privateKeyToPublicKey pubkeyToAddress this nonce h = (Ok tx, h')
    /\ contents (serializeNonce nonce) = Some nonceBytes
    /\ length nonceBytes = 4%nat /\ Forall is_byte nonceBytes
    /\ BN.of_bytes_be nonceBytes = nonce
    /\ Forall is_byte
         (4 :: pubkeyToAddress (publicKey Point privateKeyToPublicKey this)
            ++ nonceBytes)
    /\ close_signature Signature tx
       = signTransactionBytes (privateKey this)
           (4 :: pubkeyToAddress (publicKey Point privateKeyToPublicKey this)
              ++ nonceBytes)
    /\ length (4 :: pubkeyToAddress (publicKey Point privateKeyToPublicKey this)
                 ++ nonceBytes) = 25%nat
    /\ close_account Signature tx
       = "sync:" +:+
         hex_encode (pubkeyToAddress (publicKey Point privateKeyToPublicKey this))
    /\ close_nonce Signature tx = nonce.
Proof.
  intros Hbytes Hlen Hnonce.
  set (addr := pubkeyToAddress (publicKey Point privateKeyToPublicKey this)) in *.
  do 2 eexists. exists (uint32_be nonce).
  unfold signSyncCloseAccount, bind. cbn [Buf.new].
  rewrite address_run. fold addr.
  rewrite serializeAddress_run, prefixless_sync, hex_decode_encode, Hlen
    by assumption.
  cbn [Nat.eqb]. rewrite serializeNonce_run.
  destruct (Z.ltb_spec nonce 0); [lia|].
  destruct (Z.gtb_spec nonce 0xffffffff); [lia|].
  erewrite concat_run.
  2:{ repeat (apply List.Forall2_cons; [find_fresh|]). apply List.Forall2_nil. }
  unfold sign, bind. rewrite (bytes_run _ _ _ (lookup_fresh _ _)).
  unfold ret. rewrite address_run. fold addr.
  split; [reflexivity|]. cbn [close_signature close_account close_nonce List.concat].
  rewrite app_nil_r.
  assert (Hc : contents (serializeNonce nonce) = Some (uint32_be nonce)).
  { unfold contents. rewrite serializeNonce_run.
    destruct (Z.ltb_spec nonce 0); [lia|].
    now destruct (Z.gtb_spec nonce 0xffffffff); [lia|]. }
  split; [exact Hc|]. split; [reflexivity|].
  split; [apply uint32_be_bytes|].
  split; [apply uint32_be_value; lia|].
  split.
  { constructor; [unfold is_byte; lia|].
    apply Forall_app. split; [exact Hbytes|apply uint32_be_bytes]. }
  repeat split. cbn [length]. rewrite length_app, Hlen. reflexivity.
Qed.

(** X8: [signSyncCloseAccount] signs nothing when the nonce is negative or
    the hashed public key is not twenty bytes long: it throws the
    negative-nonce error, resp. the address-length error. *)
Theorem close_account_rejects (this : Signer) (nonce : Z) (h : heap) :
  Forall is_byte (pubkeyToAddress (publicKey Point privateKeyToPublicKey this)) ->
  (length (pubkeyToAddress (publicKey Point privateKeyToPublicKey this))
   <> 20%nat ->
   fst (signSyncCloseAccount Signature signTransactionBytes
          Point privateKeyToPublicKey pubkeyToAddress this nonce h)
   = Throw BadAddressLength)
  /\ (length (pubkeyToAddress (publicKey Point privateKeyToPublicKey this))
      = 20%nat ->
      nonce < 0 ->
      fst (signSyncCloseAccount Signature signTransactionBytes
             Point privateKeyToPublicKey pubkeyToAddress this nonce h)
      = Throw NegativeNonce).
Proof.
  intros Hbytes.
  set (addr := pubkeyToAddress (publicKey Point privateKeyToPublicKey this)) in *.
  unfold signSyncCloseAccount, bind. cbn [Buf.new].
  rewrite address_run. fold addr.
  rewrite serializeAddress_run, prefixless_sync, hex_decode_encode by assumption.
  split.
  - intros Hlen. now destruct (Nat.eqb_spec (length addr) 20).
  - intros Hlen Hneg. rewrite Hlen. cbn [Nat.eqb]. rewrite serializeNonce_run.
    now destruct (Z.ltb_spec nonce 0); [|lia].
Qed.

End OwnAddress.

(** ** Buffers as bit lists *)

Lemma mask_bit b k :
  is_byte b -> 0 <= k <= 7 -> negb (JS.and b (2 ^ k) =? 0) = Z.testbit b k.
Proof.
  intros Hb Hk. unfold is_byte in Hb. unfold JS.and.
  assert (Hp : 0 < 2 ^ k <= 2 ^ 7).
  { split; [apply Z.pow_pos_nonneg; lia | apply Z.pow_le_mono_r; lia]. }
  change (2 ^ 7) with 128 in Hp.
  rewrite (to_int32_small b), (to_int32_small (2 ^ k)) by lia.
  rewrite land_pow2 by lia.
  destruct (Z.testbit b k).
  - rewrite to_int32_small by lia. destruct (Z.eqb_spec (2 ^ k) 0); [lia|easy].
  - now rewrite to_int32_small by lia.
Qed.

Lemma insert_at_length {A} (pre tail : list A) x :
  <[length pre := x]> (pre ++ tail) = pre ++ <[0%nat := x]> tail.
Proof. now rewrite insert_app_r_alt, Nat.sub_diag by lia. Qed.

Lemma buffer2bitsLE_body_spec b i pre tail :
  is_byte b -> length pre = (i * 8)%nat ->
  buffer2bitsLE_body b i (pre ++ replicate 8 false ++ tail)
  = pre ++ le_bits b ++ tail.
Proof.
  intros Hb Hlen. unfold buffer2bitsLE_body.
  change 0x01 with (2 ^ 0). change 0x02 with (2 ^ 1). change 0x04 with (2 ^ 2).
  change 0x08 with (2 ^ 3). change 0x10 with (2 ^ 4). change 0x20 with (2 ^ 5).
  change 0x40 with (2 ^ 6). change 0x80 with (2 ^ 7).
  rewrite !mask_bit by (assumption || lia). rewrite <- Hlen.
  rewrite insert_at_length, !insert_app_r. reflexivity.
Qed.

Lemma buffer2bitsBE_body_spec b i pre tail :
  is_byte b -> length pre = (i * 8)%nat ->
  buffer2bitsBE_body b i (pre ++ replicate 8 false ++ tail)
  = pre ++ be_bits b ++ tail.
Proof.
  intros Hb Hlen. unfold buffer2bitsBE_body.
  change 0x01 with (2 ^ 0). change 0x02 with (2 ^ 1). change 0x04 with (2 ^ 2).
  change 0x08 with (2 ^ 3). change 0x10 with (2 ^ 4). change 0x20 with (2 ^ 5).
  change 0x40 with (2 ^ 6). change 0x80 with (2 ^ 7).
  rewrite !mask_bit by (assumption || lia). rewrite <- Hlen.
  rewrite insert_at_length, !insert_app_r. reflexivity.
Qed.

Lemma buffer2bits_loop_spec body chunk :
  (forall b, length (chunk b) = 8%nat) ->
  (forall b i pre tail,
     is_byte b -> length pre = (i * 8)%nat ->
     body b i (pre ++ replicate 8 false ++ tail) = pre ++ chunk b ++ tail) ->
  forall bytes i pre,
    Forall is_byte bytes -> length pre = (i * 8)%nat ->
    buffer2bits_loop body bytes i (pre ++ replicate (length bytes * 8) false)
    = pre ++ flat_map chunk bytes.
Proof.
  intros Hchunk Hbody bytes.
  induction bytes as [|b bytes IH]; intros i pre F Hlen.
  - reflexivity.
  - inversion F as [|? ? Hb F']; subst. cbn [buffer2bits_loop length flat_map].
    change (S (length bytes) * 8)%nat with (8 + length bytes * 8)%nat.
    rewrite replicate_add, Hbody by assumption.
    rewrite !app_assoc. apply IH; [assumption|].
    rewrite length_app, Hchunk, Hlen. lia.
Qed.

Lemma buffer2bitsLE_run (h : heap) b bs :
  h !! b = Some bs -> Forall is_byte bs ->
  buffer2bitsLE b h = (Ok (flat_map le_bits bs), h).
Proof.
  intros E F. unfold buffer2bitsLE.
  rewrite (bind_ok _ _ _ _ _ (bytes_run _ _ _ E)). unfold ret. do 2 f_equal.
  apply (buffer2bits_loop_spec _ le_bits (fun _ => eq_refl)
           buffer2bitsLE_body_spec bs 0%nat [] F eq_refl).
Qed.

Lemma buffer2bitsBE_run (h : heap) b bs :
  h !! b = Some bs -> Forall is_byte bs ->
  buffer2bitsBE b h = (Ok (flat_map be_bits bs), h).
Proof.
  intros E F. unfold buffer2bitsBE.
  rewrite (bind_ok _ _ _ _ _ (bytes_run _ _ _ E)). unfold ret. do 2 f_equal.
  apply (buffer2bits_loop_spec _ be_bits (fun _ => eq_refl)
           buffer2bitsBE_body_spec bs 0%nat [] F eq_refl).
Qed.

Lemma flat_map_chunks_length {A} (chunk : A -> list bool) bs :
  (forall b, length (chunk b) = 8%nat) ->
  length (flat_map chunk bs) = (length bs * 8)%nat.
Proof.
  intros Hchunk. induction bs as [|b bs IH]; [reflexivity|].
  cbn [flat_map length]. rewrite length_app, Hchunk, IH. lia.
Qed.

Lemma flat_map_chunks_nth (chunk : Z -> list bool) bs :
  (forall b, length (chunk b) = 8%nat) ->
  forall i j, (i < length bs)%nat -> (j < 8)%nat ->
  nth (i * 8 + j) (flat_map chunk bs) false = nth j (chunk (nth i bs 0)) false.
Proof.
  intros Hchunk. induction bs as [|b bs IH]; intros i j Hi Hj.
  - simpl in Hi. lia.
  - cbn [flat_map]. destruct i as [|i].
    + cbn [Nat.mul Nat.add nth]. apply app_nth1. rewrite Hchunk. lia.
    + replace (S i * 8 + j)%nat with (length (chunk b) + (i * 8 + j))%nat
        by (rewrite Hchunk; lia).
      rewrite app_nth2_plus. cbn [nth]. apply IH; [simpl in Hi; lia|lia].
Qed.

Lemma le_bits_nth b j :
  (j < 8)%nat -> nth j (le_bits b) false = Z.testbit b (Z.of_nat j).
Proof.
  intros Hj. do 8 (destruct j as [|j]; [reflexivity|]). lia.
Qed.

Lemma be_bits_nth b j :
  (j < 8)%nat -> nth j (be_bits b) false = Z.testbit b (Z.of_nat (7 - j)).
Proof.
  intros Hj. do 8 (destruct j as [|j]; [reflexivity|]). lia.
Qed.

(** X9: [buffer2bitsLE] and [buffer2bitsBE] return eight bits per byte and
    leave the heap alone; entry [8i + j] is bit [j] of byte [i] in the
    little-endian listing and bit [7 - j] of byte [i] in the big-endian
    one. *)
Theorem buffer2bits_entries (h : heap) (b : Buffer) (bs : list Z) :
  h !! b = Some bs -> Forall is_byte bs ->
  exists le be,
    buffer2bitsLE b h = (Ok le, h) /\ buffer2bitsBE b h = (Ok be, h)
    /\ length le = (length bs * 8)%nat /\ length be = (length bs * 8)%nat
    /\ forall i j, (i < length bs)%nat -> (j < 8)%nat ->
         nth (i * 8 + j) le false = Z.testbit (nth i bs 0) (Z.of_nat j)
         /\ nth (i * 8 + j) be false = Z.testbit (nth i bs 0) (Z.of_nat (7 - j)).
Proof.
  intros E F. exists (flat_map le_bits bs), (flat_map be_bits bs).
  split; [now apply buffer2bitsLE_run|]. split; [now apply buffer2bitsBE_run|].
  split; [now apply flat_map_chunks_length|].
  split; [now apply flat_map_chunks_length|].
  intros i j Hi Hj.
  rewrite !flat_map_chunks_nth by (reflexivity || assumption).
  now rewrite le_bits_nth, be_bits_nth.
Qed.

Lemma buffer2bits_entries_witness :
  exists le be,
    buffer2bitsLE 0%nat [[129; 3]] = (Ok le, [[129; 3]])
    /\ buffer2bitsBE 0%nat [[129; 3]] = (Ok be, [[129; 3]])
    /\ length le = (length [129; 3] * 8)%nat
    /\ length be = (length [129; 3] * 8)%nat
    /\ forall i j, (i < length [129; 3])%nat -> (j < 8)%nat ->
         nth (i * 8 + j) le false = Z.testbit (nth i [129; 3] 0) (Z.of_nat j)
         /\ nth (i * 8 + j) be false
            = Z.testbit (nth i [129; 3] 0) (Z.of_nat (7 - j)).
Proof.
  apply (buffer2bits_entries [[129; 3]] 0%nat [129; 3]).
  - reflexivity.
  - repeat constructor; unfold is_byte; lia.
Defined.

Lemma byte_eq a b :
  is_byte a -> is_byte b ->
  (forall j, (j < 8)%nat -> Z.testbit a (Z.of_nat j) = Z.testbit b (Z.of_nat j)) ->
  a = b.
Proof.
  unfold is_byte. intros Ha Hb Hbits.
  rewrite <- (Z.mod_small a (2 ^ 8)), <- (Z.mod_small b (2 ^ 8)) by (simpl; lia).
  apply Z.bits_inj'. intros k Hk. destruct (Z.lt_ge_cases k 8).
  - rewrite !Z.mod_pow2_bits_low by lia.
    replace k with (Z.of_nat (Z.to_nat k)) by lia. apply Hbits. lia.
  - now rewrite !Z.mod_pow2_bits_high by lia.
Qed.

Lemma packed_be_bits bs :
  Forall is_byte bs -> packed_bytes (flat_map be_bits bs) = bs.
Proof.
  intros F.
  assert (Hlen : length (flat_map be_bits bs) = (length bs * 8)%nat)
    by now apply flat_map_chunks_length.
  apply (nth_ext _ _ 0 0).
  - now rewrite packed_bytes_length, Hlen, Nat.div_mul.
  - intros i Hi. rewrite packed_bytes_length, Hlen, Nat.div_mul in Hi by lia.
    unfold packed_bytes. rewrite Hlen, Nat.div_mul, nth_map_seq by lia.
    apply byte_eq.
    + apply byte_of_bits_is_byte.
    + apply (proj1 (List.Forall_forall _ _) F), nth_In. lia.
    + intros j Hj. rewrite byte_of_bits_testbit by lia. unfold bit_at.
      rewrite flat_map_chunks_nth, be_bits_nth by (reflexivity || lia).
      do 2 f_equal. lia.
Qed.

Lemma be_bits_packed bits :
  (length bits mod 8 = 0)%nat -> flat_map be_bits (packed_bytes bits) = bits.
Proof.
  intros Hm.
  pose proof (Nat.div_mod_eq (length bits) 8) as Hl. rewrite Hm in Hl.
  assert (Hlen : length (flat_map be_bits (packed_bytes bits)) = length bits).
  { rewrite flat_map_chunks_length, packed_bytes_length by reflexivity. lia. }
  apply (nth_ext _ _ false false); [exact Hlen|].
  intros k Hk. rewrite Hlen in Hk.
  pose proof (Nat.div_mod_eq k 8) as Ek.
  pose proof (Nat.mod_upper_bound k 8 ltac:(lia)) as Hr.
  set (i := (k / 8)%nat) in *. set (j := (k mod 8)%nat) in *.
  replace k with (i * 8 + j)%nat by lia.
  assert (Hi : (i < length bits / 8)%nat) by lia.
  rewrite flat_map_chunks_nth, be_bits_nth;
    rewrite ?packed_bytes_length; try (reflexivity || lia).
  unfold packed_bytes. rewrite nth_map_seq by lia.
  rewrite byte_of_bits_testbit by lia. unfold bit_at. f_equal. lia.
Qed.

(** X10: listing the bits of a buffer most significant first and packing them
    again with [bitsIntoBytesInBEOrder] gives a new buffer with the same
    bytes. *)
Theorem bits_of_buffer_pack_back (h : heap) (b : Buffer) (bs : list Z) :
  h !! b = Some bs -> Forall is_byte bs ->
  (let* bits := buffer2bitsBE b in bitsIntoBytesInBEOrder bits) h
  = (Ok (length h), h ++ [bs]).
Proof.
  intros E F. rewrite (bind_ok _ _ _ _ _ (buffer2bitsBE_run _ _ _ E F)).
  rewrite bitsIntoBytesInBEOrder_run.
  rewrite flat_map_chunks_length by reflexivity.
  rewrite Nat.Div0.mod_mul. cbn [Nat.eqb]. now rewrite packed_be_bits.
Qed.

Lemma bits_of_buffer_pack_back_witness :
  (let* bits := buffer2bitsBE 0%nat in bitsIntoBytesInBEOrder bits) [[129; 3]]
  = (Ok (length ([[129; 3]] : list (list Z))), [[129; 3]] ++ [[129; 3]]).
Proof.
  apply (bits_of_buffer_pack_back [[129; 3]] 0%nat [129; 3]).
  - reflexivity.
  - repeat constructor; unfold is_byte; lia.
Defined.

(** X11: packing a list of bits whose length is a multiple of eight and
    listing the bits of the result most significant first gives the list
    back; any other length is refused with the wrong-number-of-bits
    error. *)
Theorem pack_bits_list_back (bits : list bool) (h : heap) :
  (let* packed := bitsIntoBytesInBEOrder bits in buffer2bitsBE packed) h
  = if (length bits mod 8 =? 0)%nat
    then (Ok bits, h ++ [packed_bytes bits])
    else (Throw WrongNumberOfBits, h).
Proof.
  unfold bind. rewrite bitsIntoBytesInBEOrder_run.
  destruct (Nat.eqb_spec (length bits mod 8) 0) as [Hm|]; [|reflexivity].
  rewrite (buffer2bitsBE_run _ _ _ (lookup_fresh h _) (packed_bytes_are_bytes bits)).
  now rewrite be_bits_packed.
Qed.

(** ** The wire value of a packed number *)

Lemma of_bytes_be_bound bs :
  Forall is_byte bs -> BN.of_bytes_be bs < 256 ^ Z.of_nat (length bs).
Proof.
  induction bs as [|b bs IH] using rev_ind; intros F; [reflexivity|].
  apply Forall_app in F as [F1 F2]. inversion F2 as [|? ? Hb _]; subst.
  rewrite of_bytes_be_snoc, length_app. cbn [length].
  replace (Z.of_nat (length bs + 1)) with (Z.succ (Z.of_nat (length bs))) by lia.
  rewrite Z.pow_succ_r by lia. specialize (IH F1). unfold is_byte in Hb. lia.
Qed.

(** The low [eb] bits of the packed number are the exponent and the next
    [mb] bits the low bits of the mantissa's magnitude. *)
Lemma float_bytes_fields e m eb mb :
  0 <= eb <= 30 -> 0 <= mb -> (eb + mb) mod 8 = 0 -> 0 <= e < 2 ^ eb ->
  BN.of_bytes_be (float_bytes e m eb mb) mod 2 ^ eb = e
  /\ (BN.of_bytes_be (float_bytes e m eb mb) / 2 ^ eb) mod 2 ^ mb
     = Z.abs m mod 2 ^ mb.
Proof.
  intros Heb Hmb Hal He.
  destruct (widths_aligned eb mb) as [Hnat _]; try lia.
  pose proof (float_bytes_holder_nonneg e m eb mb) as HN.
  set (N := BN.of_bytes_be (float_bytes e m eb mb)) in *.
  assert (He31 : e < 2 ^ 31).
  { apply Z.lt_le_trans with (2 ^ eb); [lia|]. apply Z.pow_le_mono_r; lia. }
  split.
  - transitivity (e mod 2 ^ eb); [|apply Z.mod_small; lia].
    apply Z.bits_inj'. intros k Hk. destruct (Z.lt_ge_cases k eb).
    + rewrite !Z.mod_pow2_bits_low by lia.
      replace k with (Z.of_nat (Z.to_nat k)) at 1 by lia. unfold N.
      rewrite float_bytes_testbit by (auto; lia). unfold float_encoding.
      rewrite app_nth1 by (rewrite length_map, length_upto; lia).
      rewrite nth_map_upto by lia. apply exponent_bit; lia.
    + now rewrite !Z.mod_pow2_bits_high by lia.
  - apply Z.bits_inj'. intros k Hk. destruct (Z.lt_ge_cases k mb).
    + rewrite !Z.mod_pow2_bits_low by lia. rewrite Z.div_pow2_bits by lia.
      replace (k + eb) with (Z.of_nat (Z.to_nat eb + Z.to_nat k)) by lia.
      unfold N. rewrite float_bytes_testbit by (auto; lia). unfold float_encoding.
      rewrite app_nth2; rewrite length_map, length_upto; [|lia].
      replace (Z.to_nat eb + Z.to_nat k - Z.to_nat eb)%nat with (Z.to_nat k) by lia.
      now rewrite nth_map_upto by lia.
    + now rewrite !Z.mod_pow2_bits_high by lia.
Qed.

Lemma float_bytes_value e m eb mb :
  0 <= eb <= 30 -> 0 <= mb -> (eb + mb) mod 8 = 0 ->
  0 <= e < 2 ^ eb -> 0 <= m < 2 ^ mb ->
  BN.of_bytes_be (float_bytes e m eb mb) = m * 2 ^ eb + e.
Proof.
  intros Heb Hmb Hal He Hm.
  destruct (float_bytes_fields e m eb mb Heb Hmb Hal He) as [Hlow Hhigh].
  destruct (widths_aligned eb mb) as [_ Hlen]; try lia.
  pose proof (float_bytes_holder_nonneg e m eb mb) as HN.
  pose proof (of_bytes_be_bound _ (packed_bytes_are_bytes
                (rev (float_encoding e m eb mb)))) as Hbound.
  fold (float_bytes e m eb mb) in Hbound. rewrite float_bytes_length in Hbound.
  change 256 with (2 ^ 8) in Hbound. rewrite <- Z.pow_mul_r in Hbound by lia.
  replace (8 * Z.of_nat ((Z.to_nat eb + Z.to_nat mb) / 8)) with (eb + mb)
    in Hbound by lia.
  set (N := BN.of_bytes_be (float_bytes e m eb mb)) in *.
  assert (Hpe : 0 < 2 ^ eb) by (apply Z.pow_pos_nonneg; lia).
  rewrite Z.abs_eq, (Z.mod_small m) in Hhigh by lia.
  rewrite Z.mod_small in Hhigh.
  - pose proof (Z.div_mod N (2 ^ eb)). lia.
  - split; [apply Z.div_pos; lia|].
    apply Z.div_lt_upper_bound; [lia|]. now rewrite <- Z.pow_add_r by lia.
Qed.

(** X12: below the overflow bound, the buffer returned by [packAmount]
    (resp. [packFee]) has five (resp. two) bytes, and read as one big-endian
    number it is [mantissa * 32 + exponent], for the least exponent [e] that
    fits and the mantissa [v div 10^e]. *)
Theorem packed_wire_value (k : kind) (v : Z) (h : heap) :
  0 <= v <= (2 ^ mantissa_width k - 1) * 10 ^ 31 ->
  exists e b h' bytes,
    0 <= e <= 31
    /\ v / 10 ^ e <= 2 ^ mantissa_width k - 1
    /\ (forall j, 0 <= j < e -> 2 ^ mantissa_width k - 1 < v / 10 ^ j)
    /\ packOf k v h = (Ok b, h') /\ h' !! b = Some bytes
    /\ Z.of_nat (length bytes) * 8 = 5 + mantissa_width k
    /\ Forall is_byte bytes
    /\ BN.of_bytes_be bytes = v / 10 ^ e * 32 + e.
Proof.
  intros Hv. destruct (kind_widths k) as (Heb & Hmb & Hal & H31).
  assert (Hfive : exponent_width k = 5) by now destruct k.
  rewrite <- kind_max_value in Hv.
  destruct (float_fields_ok v _ _ Heb Hmb Hv) as (e & E & (He & Hfit & Hmin) & Hlt).
  destruct (widths_aligned _ _ (proj1 Heb) Hmb Hal) as [Hnat Hlen].
  assert (Hrun : packOf k v h
                 = pack (exponent_width k) (mantissa_width k) v h) by now destruct k.
  exists e, (length h + 2)%nat. eexists.
  exists (float_bytes e (v / 10 ^ e) (exponent_width k) (mantissa_width k)).
  split; [lia|]. split; [exact Hfit|]. split; [exact Hmin|]. split.
  { rewrite Hrun, pack_run, E, Hnat. reflexivity. }
  split.
  { rewrite lookup_app_r by lia.
    now replace (length h + 2 - length h)%nat with 2%nat by lia. }
  split; [rewrite float_bytes_length, Hlen, Hfive; lia|].
  split; [apply packed_bytes_are_bytes|].
  rewrite float_bytes_value; try lia.
  split; [|unfold max_mantissa in Hfit; lia].
  apply Z.div_pos; [lia|apply Z.pow_pos_nonneg; lia].
Qed.

Lemma packed_wire_value_witness :
  exists e b h' bytes,
    0 <= e <= 31
    /\ 2047000 / 10 ^ e <= 2 ^ mantissa_width Fee - 1
    /\ (forall j, 0 <= j < e -> 2 ^ mantissa_width Fee - 1 < 2047000 / 10 ^ j)
    /\ packOf Fee 2047000 [] = (Ok b, h') /\ h' !! b = Some bytes
    /\ Z.of_nat (length bytes) * 8 = 5 + mantissa_width Fee
    /\ Forall is_byte bytes
    /\ BN.of_bytes_be bytes = 2047000 / 10 ^ e * 32 + e.
Proof.
  apply (packed_wire_value Fee 2047000 []). vm_compute. split; discriminate.
Defined.

(** ** Rounding *)

(** X13: below the overflow bound the nearest packable value never exceeds
    the input and misses it by less than [10^e], [e] being the least
    exponent that fits; an input that fits the mantissa as it is comes back
    unchanged. *)
Theorem closest_packable_rounds_down (k : kind) (v : Z) (h : heap) :
  0 <= v <= (2 ^ mantissa_width k - 1) * 10 ^ 31 ->
  exists e c h',
    closestPackable k v h = (Ok c, h')
    /\ 0 <= e <= 31
    /\ (forall j, 0 <= j < e -> 2 ^ mantissa_width k - 1 < v / 10 ^ j)
    /\ 0 <= c /\ 0 <= v - c < 10 ^ e
    /\ (v <= 2 ^ mantissa_width k - 1 -> c = v).
Proof.
  intros Hv. destruct (kind_widths k) as (Heb & Hmb & Hal & H31).
  rewrite <- kind_max_value in Hv.
  destruct (closest_value _ _ v h Heb Hmb Hal Hv)
    as (e & m & (He & Hfit & Hmin) & Hlt & -> & _ & Hrun).
  assert (Hp : 0 < 10 ^ e) by (apply Z.pow_pos_nonneg; lia).
  pose proof (Z.div_mod v (10 ^ e) ltac:(lia)) as Hdm.
  pose proof (Z.mod_pos_bound v (10 ^ e) Hp) as Hr.
  assert (0 <= v / 10 ^ e) by (apply Z.div_pos; lia).
  exists e, (v / 10 ^ e * 10 ^ e). eexists.
  rewrite closestPackable_closest. split; [exact Hrun|].
  split; [lia|]. split; [exact Hmin|]. split; [lia|]. split; [lia|].
  intros Hsmall. destruct (Z.eq_dec e 0) as [->|Hne].
  - rewrite Z.pow_0_r, Z.div_1_r. lia.
  - specialize (Hmin 0 ltac:(lia)). rewrite Z.pow_0_r, Z.div_1_r in Hmin.
    unfold max_mantissa in Hmin. lia.
Qed.

Lemma closest_packable_rounds_down_witness :
  exists e c h',
    closestPackable Fee 2048 [] = (Ok c, h')
    /\ 0 <= e <= 31
    /\ (forall j, 0 <= j < e -> 2 ^ mantissa_width Fee - 1 < 2048 / 10 ^ j)
    /\ 0 <= c /\ 0 <= 2048 - c < 10 ^ e
    /\ (2048 <= 2 ^ mantissa_width Fee - 1 -> c = 2048).
Proof.
  apply (closest_packable_rounds_down Fee 2048 []). vm_compute. split; discriminate.
Defined.

(** ** What the checked packers accept *)

Lemma decode_float_bytes_any e m eb mb base :
  0 <= eb <= 30 -> 0 <= mb -> (eb + mb) mod 8 = 0 -> 0 <= e < 2 ^ eb ->
  decode_bytes (float_bytes e m eb mb) eb mb base
  = base ^ e * (Z.abs m mod 2 ^ mb).
Proof.
  intros Heb Hmb Hal He.
  destruct (float_bytes_fields e m eb mb Heb Hmb Hal He) as [Hlow Hhigh].
  pose proof (float_bytes_holder_nonneg e m eb mb) as HN.
  unfold decode_bytes, BN.mul, BN.pow.
  rewrite !accumulate_bits_spec by lia.
  rewrite (Z.abs_eq (BN.of_bytes_be (float_bytes e m eb mb))) by lia.
  rewrite !Z2Nat.id, Z.pow_0_r, Z.div_1_r, !Z.add_0_l, !Z.mul_1_l by lia.
  now rewrite Hlow, Hhigh, (Z.abs_eq e) by lia.
Qed.

Lemma float_fields_negative v eb mb base :
  v < 0 -> float_fields v eb mb base = Ok (v, 0).
Proof.
  intros Hv. unfold float_fields, BN.gt, BN.mul, BN.subn, BN.pow, normalize_fuel.
  assert (0 < 2 ^ Z.abs mb) by (apply Z.pow_pos_nonneg; lia).
  assert (0 < 10 ^ Z.abs (JS.shl 1 eb - 1)) by (apply Z.pow_pos_nonneg; lia).
  destruct (Z.gtb_spec v ((2 ^ Z.abs mb - 1) * 10 ^ Z.abs (JS.shl 1 eb - 1)));
    [nia|].
  cbn [normalize]. unfold BN.gt.
  now destruct (Z.gtb_spec v (2 ^ Z.abs mb - 1)); [lia|].
Qed.

(** X14: a negative value is never packed.  Its bits are taken from its
    magnitude, so the nearest packable value reported for it is the
    magnitude reduced modulo [2^mantissaBits], which is not the value, and
    the checked packers throw the not-packable error. *)
Theorem negative_not_packable (k : kind) (v : Z) (h : heap) :
  v < 0 ->
  exists h',
    closestPackable k v h = (Ok (Z.abs v mod 2 ^ mantissa_width k), h')
    /\ packChecked k v h = (Throw (not_packable k), h').
Proof.
  intros Hv. destruct (kind_widths k) as (Heb & Hmb & Hal & H31).
  assert (Hp : 0 < 2 ^ exponent_width k) by lia.
  assert (Hdec : decode_bytes
                   (float_bytes 0 v (exponent_width k) (mantissa_width k))
                   (exponent_width k) (mantissa_width k) 10
                 = Z.abs v mod 2 ^ mantissa_width k).
  { rewrite decode_float_bytes_any by lia. rewrite Z.pow_0_r. lia. }
  eexists.
  rewrite closestPackable_closest, packChecked_pack_checked.
  rewrite closest_run, pack_checked_run, float_fields_negative by lia.
  cbn zeta. rewrite Hdec. split; [reflexivity|].
  pose proof (Z.mod_pos_bound (Z.abs v) (2 ^ mantissa_width k)
                ltac:(apply Z.pow_pos_nonneg; lia)).
  now destruct (Z.eqb_spec (Z.abs v mod 2 ^ mantissa_width k) v); [lia|].
Qed.

Lemma negative_not_packable_witness :
  exists h',
    closestPackable Amount (-5) [] = (Ok (Z.abs (-5) mod 2 ^ mantissa_width Amount), h')
    /\ packChecked Amount (-5) [] = (Throw (not_packable Amount), h').
Proof.
  apply (negative_not_packable Amount (-5) []). lia.
Defined.

(** X15: above the overflow bound the packer, the nearest-value function and
    the checked packer of either kind all throw the overflow error, the
    checked packer too (not its not-packable error), and the heap is left as
    it was. *)
Theorem overflow_stops_packing (k : kind) (v : Z) (h : heap) :
  (2 ^ mantissa_width k - 1) * 10 ^ 31 < v ->
  packOf k v h = (Throw IntegerTooBig, h)
  /\ closestPackable k v h = (Throw IntegerTooBig, h)
  /\ packChecked k v h = (Throw IntegerTooBig, h).
Proof.
  intros Hv. destruct (kind_widths k) as (Heb & Hmb & Hal & H31).
  rewrite <- kind_max_value in Hv.
  apply (float_fields_overflow v _ _ 10 Heb Hmb) in Hv.
  assert (Hrun : packOf k v h
                 = pack (exponent_width k) (mantissa_width k) v h) by now destruct k.
  rewrite Hrun, closestPackable_closest, packChecked_pack_checked.
  now rewrite pack_run, closest_run, pack_checked_run, Hv by lia.
Qed.

Lemma overflow_stops_packing_witness :
  packOf Fee (2047 * 10 ^ 31 + 1) [] = (Throw IntegerTooBig, [])
  /\ closestPackable Fee (2047 * 10 ^ 31 + 1) [] = (Throw IntegerTooBig, [])
  /\ packChecked Fee (2047 * 10 ^ 31 + 1) [] = (Throw IntegerTooBig, []).
Proof.
  apply (overflow_stops_packing Fee (2047 * 10 ^ 31 + 1) []).
  vm_compute. reflexivity.
Defined.

(** X16: for a value between zero and the overflow bound, with [e] the
    least exponent that fits, the checked packer returns a buffer exactly
    when [10^e] divides the value, and throws the not-packable error
    otherwise. *)
Theorem packable_iff_divisible (k : kind) (v : Z) (h : heap) :
  0 <= v <= (2 ^ mantissa_width k - 1) * 10 ^ 31 ->
  exists e,
    0 <= e <= 31
    /\ v / 10 ^ e <= 2 ^ mantissa_width k - 1
    /\ (forall j, 0 <= j < e -> 2 ^ mantissa_width k - 1 < v / 10 ^ j)
    /\ (v mod 10 ^ e = 0 -> exists b h', packChecked k v h = (Ok b, h'))
    /\ (v mod 10 ^ e <> 0 ->
        fst (packChecked k v h) = Throw (not_packable k)).
Proof.
  intros Hv. destruct (kind_widths k) as (Heb & Hmb & Hal & H31).
  rewrite <- kind_max_value in Hv.
  destruct (float_fields_ok v _ _ Heb Hmb Hv) as (e & E & (He & Hfit & Hmin) & Hlt).
  assert (Hp : 0 < 10 ^ e) by (apply Z.pow_pos_nonneg; lia).
  assert (Hm : 0 <= v / 10 ^ e < 2 ^ mantissa_width k).
  { split; [apply Z.div_pos; lia|unfold max_mantissa in Hfit; lia]. }
  pose proof (Z.div_mod v (10 ^ e) ltac:(lia)) as Hdm.
  exists e. split; [lia|]. split; [exact Hfit|]. split; [exact Hmin|].
  rewrite packChecked_pack_checked, pack_checked_run, E by lia. cbn zeta.
  rewrite decode_float_bytes by lia.
  split; intros Hmod.
  - destruct (Z.eqb_spec (10 ^ e * (v / 10 ^ e)) v); [eauto|lia].
  - now destruct (Z.eqb_spec (10 ^ e * (v / 10 ^ e)) v); [lia|].
Qed.

Lemma packable_iff_divisible_witness :
  exists e,
    0 <= e <= 31
    /\ 20480 / 10 ^ e <= 2 ^ mantissa_width Fee - 1
    /\ (forall j, 0 <= j < e -> 2 ^ mantissa_width Fee - 1 < 20480 / 10 ^ j)
    /\ (20480 mod 10 ^ e = 0 -> exists b h', packChecked Fee 20480 [] = (Ok b, h'))
    /\ (20480 mod 10 ^ e <> 0 ->
        fst (packChecked Fee 20480 []) = Throw (not_packable Fee)).
Proof.
  apply (packable_iff_divisible Fee 20480 []). vm_compute. split; discriminate.
Defined.

(** A mantissa that fits, times a power of ten the exponent field can hold,
    is its own nearest packable value. *)
Lemma closest_of_product eb mb m e (h : heap) :
  0 <= eb <= 30 -> 0 <= mb -> (eb + mb) mod 8 = 0 ->
  0 <= m <= max_mantissa mb -> 0 <= e < 2 ^ eb ->
  m * 10 ^ e <= max_value eb mb
  /\ exists h', closest eb mb (m * 10 ^ e) h = (Ok (m * 10 ^ e), h').
Proof.
  intros Heb Hmb Hal Hm He.
  assert (Hp : 0 < 10 ^ e) by (apply Z.pow_pos_nonneg; lia).
  assert (Hy : m * 10 ^ e <= max_value eb mb).
  { unfold max_value. apply Z.mul_le_mono_nonneg; try lia.
    apply Z.pow_le_mono_r; lia. }
  split; [exact Hy|].
  destruct (closest_value eb mb (m * 10 ^ e) h Heb Hmb Hal ltac:(lia))
    as (e' & m' & (He' & Hfit' & Hmin') & _ & Hm' & _ & Hrun).
  eexists. rewrite Hrun. do 2 f_equal.
  assert (Hle : e' <= e).
  { destruct (Z.le_gt_cases e' e) as [|Hgt]; [easy|].
    specialize (Hmin' e ltac:(lia)). rewrite Z.div_mul in Hmin' by lia. lia. }
  assert (Hsplit : 10 ^ e = 10 ^ (e - e') * 10 ^ e').
  { rewrite <- Z.pow_add_r by lia. f_equal. lia. }
  assert (0 < 10 ^ e') by (apply Z.pow_pos_nonneg; lia).
  subst m'. rewrite Hsplit.
  now rewrite Z.mul_assoc, Z.div_mul by lia.
Qed.

(** X17: [floatToInteger] refuses a buffer whose length does not match the
    widths and leaves the heap alone; from a buffer of the right length it
    reads a value between zero and the overflow bound that is its own
    nearest packable value, whatever the bytes are. *)
Theorem decoded_value_is_packable (k : kind) (h : heap) (b : Buffer)
    (bytes : list Z) :
  h !! b = Some bytes ->
  (Z.of_nat (length bytes) * 8 <> mantissa_width k + 5 ->
   floatToInteger b 5 (mantissa_width k) 10 h = (Throw IncorrectInputLength, h))
  /\ (Z.of_nat (length bytes) * 8 = mantissa_width k + 5 ->
      exists v h',
        floatToInteger b 5 (mantissa_width k) 10 h = (Ok v, h)
        /\ 0 <= v <= (2 ^ mantissa_width k - 1) * 10 ^ 31
        /\ closestPackable k v h = (Ok v, h')).
Proof.
  intros E. destruct (kind_widths k) as (Heb & Hmb & Hal & H31).
  assert (Hfive : exponent_width k = 5) by now destruct k.
  rewrite (floatToInteger_run _ _ _ _ _ _ E).
  split; intros Hlen.
  - now destruct (Z.eqb_spec (Z.of_nat (length bytes) * 8) (mantissa_width k + 5)).
  - rewrite Hlen, Z.eqb_refl.
    unfold decode_bytes, BN.mul, BN.pow.
    rewrite !accumulate_bits_spec by lia.
    rewrite !Z2Nat.id, Z.pow_0_r, Z.div_1_r, !Z.add_0_l, !Z.mul_1_l by lia.
    set (N := Z.abs (BN.of_bytes_be bytes)).
    pose proof (Z.mod_pos_bound N (2 ^ 5) ltac:(lia)) as HE.
    pose proof (Z.mod_pos_bound (N / 2 ^ 5) (2 ^ mantissa_width k)
                  ltac:(apply Z.pow_pos_nonneg; lia)) as HM.
    rewrite (Z.abs_eq (N mod 2 ^ 5)) by lia.
    set (X := N mod 2 ^ 5) in *.
    set (Y := (N / 2 ^ 5) mod 2 ^ mantissa_width k) in *.
    rewrite (Z.mul_comm (10 ^ X) Y).
    destruct (closest_of_product (exponent_width k) (mantissa_width k) Y X h)
      as [Hbound [h' Hrun]]; try lia.
    { unfold max_mantissa. lia. }
    exists (Y * 10 ^ X), h'. split; [reflexivity|]. split.
    + rewrite kind_max_value in Hbound.
      assert (0 < 10 ^ X) by (apply Z.pow_pos_nonneg; lia). nia.
    + now rewrite closestPackable_closest.
Qed.

Lemma decoded_value_is_packable_witness :
  (Z.of_nat (length [255; 255]) * 8 <> mantissa_width Fee + 5 ->
   floatToInteger 0%nat 5 (mantissa_width Fee) 10 [[255; 255]]
   = (Throw IncorrectInputLength, [[255; 255]]))
  /\ (Z.of_nat (length [255; 255]) * 8 = mantissa_width Fee + 5 ->
      exists v h',
        floatToInteger 0%nat 5 (mantissa_width Fee) 10 [[255; 255]]
        = (Ok v, [[255; 255]])
        /\ 0 <= v <= (2 ^ mantissa_width Fee - 1) * 10 ^ 31
        /\ closestPackable Fee v [[255; 255]] = (Ok v, h')).
Proof.
  apply (decoded_value_is_packable Fee [[255; 255]] 0%nat [255; 255]).
  reflexivity.
Defined.

(** ** Buffers that existed before a call *)

Lemma extends_refl (h : heap) : extends h h.
Proof. exists []. now rewrite app_nil_r. Qed.

Lemma extends_trans (h1 h2 h3 : heap) :
  extends h1 h2 -> extends h2 h3 -> extends h1 h3.
Proof. intros [t1 ->] [t2 ->]. exists (t1 ++ t2). now rewrite app_assoc. Qed.

Lemma appends_ret {A} (a : A) : appends (ret a).
Proof. intros h. apply extends_refl. Qed.

Lemma appends_throw {A} e : appends (@throw A e).
Proof. intros h. apply extends_refl. Qed.

Lemma appends_bind {A B} (m : M A) (k : A -> M B) :
  appends m -> (forall a, appends (k a)) -> appends (bind m k).
Proof.
  intros Hm Hk h. unfold bind. specialize (Hm h).
  destruct (m h) as [[a|e] h1]; cbn [snd] in *; [|exact Hm].
  eapply extends_trans; [exact Hm|apply Hk].
Qed.

Lemma appends_new bs : appends (Buf.new bs).
Proof. intros h. apply extends_app. Qed.

Lemma appends_bytes b : appends (Buf.bytes b).
Proof. intros h. unfold Buf.bytes. destruct (h !! b); apply extends_refl. Qed.

Lemma appends_map_m_bytes bs : appends (map_m Buf.bytes bs).
Proof.
  induction bs as [|b bs IH]; [apply appends_ret|].
  cbn [map_m]. apply appends_bind; [apply appends_bytes|]. intros y.
  apply appends_bind; [exact IH|]. intros ys. apply appends_ret.
Qed.

Lemma appends_concat bs : appends (Buf.concat bs).
Proof.
  apply appends_bind; [apply appends_map_m_bytes|]. intros. apply appends_new.
Qed.

Lemma appends_pack eb mb v : appends (pack eb mb v).
Proof.
  intros h. rewrite pack_run. destruct (float_fields v eb mb 10) as [[m e]|];
    [destruct (_ =? 0)%nat|]; cbn [snd];
    (apply extends_refl || apply extends_app).
Qed.

Lemma appends_closest k v : appends (closest (exponent_width k) (mantissa_width k) v).
Proof.
  intros h. destruct (kind_widths k) as (Heb & Hmb & Hal & _).
  rewrite closest_run by lia.
  destruct (float_fields v _ _ 10) as [[m e]|]; cbn [snd];
    (apply extends_refl || apply extends_app).
Qed.

Lemma appends_packChecked k v : appends (packChecked k v).
Proof.
  intros h. destruct (kind_widths k) as (Heb & Hmb & Hal & _).
  rewrite packChecked_pack_checked, pack_checked_run by lia.
  destruct (float_fields v _ _ 10) as [[m e]|]; cbn zeta;
    [destruct (_ =? v)|]; cbn [snd]; (apply extends_refl || apply extends_app).
Qed.

Lemma appends_serializeAddress s : appends (serializeAddress s).
Proof.
  intros h. rewrite serializeAddress_run. destruct (prefixlessAddress s);
    [destruct (_ =? 20)%nat|]; cbn [snd]; (apply extends_refl || apply extends_app).
Qed.

Lemma appends_serializeTokenId v : appends (serializeTokenId v).
Proof.
  intros h. rewrite serializeTokenId_run.
  destruct (v <? 0); [|destruct (v >=? _)]; cbn [snd];
    (apply extends_refl || apply extends_app).
Qed.

Lemma appends_serializeNonce v : appends (serializeNonce v).
Proof.
  intros h. rewrite serializeNonce_run.
  destruct (v <? 0); [|destruct (v >? _)]; cbn [snd];
    (apply extends_refl || apply extends_app).
Qed.

Lemma appends_serializeAmountFull a : appends (serializeAmountFull a).
Proof.
  intros h. unfold serializeAmountFull, toArrayLike_be.
  destruct (_ <? _)%nat; [apply extends_refl|apply extends_app].
Qed.

(** X18: unlike [reverseBits], the packers do not touch a buffer their
    caller can see: after [packAmount]/[packFee], the nearest-value
    functions and the checked packers, every buffer that was in the heap
    holds the bytes it held before, whether the call returned or threw. *)
Theorem packing_keeps_existing_buffers (k : kind) (v : Z) (h : heap)
    (l : Buffer) (bs : list Z) :
  h !! l = Some bs ->
  snd (packOf k v h) !! l = Some bs
  /\ snd (closestPackable k v h) !! l = Some bs
  /\ snd (packChecked k v h) !! l = Some bs.
Proof.
  intros E.
  assert (Hrun : packOf k v h
                 = pack (exponent_width k) (mantissa_width k) v h) by now destruct k.
  rewrite Hrun, closestPackable_closest.
  repeat split; eapply extends_lookup; try exact E.
  - apply appends_pack.
  - apply appends_closest.
  - apply appends_packChecked.
Qed.

Lemma packing_keeps_existing_buffers_witness :
  snd (packOf Amount 1000 [[1; 2]]) !! 0%nat = Some [1; 2]
  /\ snd (closestPackable Amount 1000 [[1; 2]]) !! 0%nat = Some [1; 2]
  /\ snd (packChecked Amount 1000 [[1; 2]]) !! 0%nat = Some [1; 2].
Proof.
  apply (packing_keeps_existing_buffers Amount 1000 [[1; 2]] 0%nat [1; 2]).
  reflexivity.
Defined.

(** ** Signing needs every field *)

Lemma serializeAddress_ok_contents s (h : heap) b h' :
  serializeAddress s h = (Ok b, h') -> is_Some (contents (serializeAddress s)).
Proof.
  unfold contents. rewrite !serializeAddress_run.
  destruct (prefixlessAddress s); [|discriminate].
  destruct (_ =? 20)%nat; [|discriminate]. intros _. cbn. eauto.
Qed.

Lemma serializeTokenId_ok_contents v (h : heap) b h' :
  serializeTokenId v h = (Ok b, h') -> is_Some (contents (serializeTokenId v)).
Proof.
  unfold contents. rewrite !serializeTokenId_run.
  destruct (v <? 0); [discriminate|]. destruct (v >=? _); [discriminate|].
  intros _. cbn. eauto.
Qed.

Lemma serializeNonce_ok_contents v (h : heap) b h' :
  serializeNonce v h = (Ok b, h') -> is_Some (contents (serializeNonce v)).
Proof.
  unfold contents. rewrite !serializeNonce_run.
  destruct (v <? 0); [discriminate|]. destruct (v >? _); [discriminate|].
  intros _. cbn. eauto.
Qed.

Lemma serializeAmountFull_ok_contents a (h : heap) b h' :
  serializeAmountFull a h = (Ok b, h') ->
  is_Some (contents (serializeAmountFull a)).
Proof.
  unfold contents, serializeAmountFull, toArrayLike_be.
  destruct (_ <? _)%nat; [discriminate|]. intros _. cbn. eauto.
Qed.

Lemma packChecked_ok_contents k v (h : heap) b h' :
  packChecked k v h = (Ok b, h') -> is_Some (contents (packChecked k v)).
Proof.
  destruct (kind_widths k) as (Heb & Hmb & Hal & _).
  unfold contents. rewrite packChecked_pack_checked, !pack_checked_run by lia.
  destruct (float_fields v _ _ 10) as [[m e]|]; [|discriminate].
  cbn zeta. destruct (_ =? v); [|discriminate]. intros _.
  change (length []) with 0%nat.
  change (0 + 6)%nat with (length ([] : list (list Z)) + 6)%nat.
  rewrite lookup_packed. eauto.
Qed.

Ltac after lem := apply appends_bind; [apply lem | intros ?].

Section Signing.

Variable Signature : Type.
Variable signTransactionBytes : BN.t -> list Z -> Signature.

Lemma appends_sign this b : appends (sign Signature signTransactionBytes this b).
Proof.
  apply appends_bind; [apply appends_bytes|]. intros. apply appends_ret.
Qed.

(** X19: [signSyncTransfer] and [signSyncWithdraw] only add buffers: every
    buffer that was in the heap before the call holds the bytes it held,
    whether the call returned a signed transaction or threw. *)
Theorem signing_keeps_existing_buffers (this : Signer) (t : TxFields)
    (h : heap) (l : Buffer) (bs : list Z) :
  h !! l = Some bs ->
  snd (signSyncTransfer Signature signTransactionBytes this t h) !! l = Some bs
  /\ snd (signSyncWithdraw Signature signTransactionBytes this t h) !! l
     = Some bs.
Proof.
  intros E. split; eapply extends_lookup; try exact E.
  - unfold signSyncTransfer.
    after appends_new. after appends_serializeAddress.
    after appends_serializeAddress. after appends_serializeTokenId.
    after (appends_packChecked Amount). after (appends_packChecked Fee).
    after appends_serializeNonce. after appends_concat. after appends_sign.
    apply appends_ret.
  - unfold signSyncWithdraw.
    after appends_new. after appends_serializeAddress.
    after appends_serializeAddress. after appends_serializeTokenId.
    after appends_serializeAmountFull. after (appends_packChecked Fee).
    after appends_serializeNonce. after appends_concat. after appends_sign.
    apply appends_ret.
Qed.

(** X20: a signed transfer or withdrawal is returned only if every one of
    its six field serializers succeeds on the field it is given; with any
    field that fails to serialize, nothing is signed. *)
Theorem signing_needs_every_field (this : Signer) (t : TxFields) (h : heap) :
  ((exists tx h', signSyncTransfer Signature signTransactionBytes this t h
                  = (Ok tx, h')) ->
   is_Some (contents (serializeAddress (tx_from t)))
   /\ is_Some (contents (serializeAddress (tx_to t)))
   /\ is_Some (contents (serializeTokenId (tx_tokenId t)))
   /\ is_Some (contents (serializeAmountPacked (tx_amount t)))
   /\ is_Some (contents (serializeFeePacked (tx_fee t)))
   /\ is_Some (contents (serializeNonce (tx_nonce t))))
  /\ ((exists tx h', signSyncWithdraw Signature signTransactionBytes this t h
                     = (Ok tx, h')) ->
      is_Some (contents (serializeAddress (tx_from t)))
      /\ is_Some (contents (serializeAddress (tx_to t)))
      /\ is_Some (contents (serializeTokenId (tx_tokenId t)))
      /\ is_Some (contents (serializeAmountFull (tx_amount t)))
      /\ is_Some (contents (serializeFeePacked (tx_fee t)))
      /\ is_Some (contents (serializeNonce (tx_nonce t)))).
Proof.
  split; intros (tx & h' & H).
  - unfold signSyncTransfer, bind in H. cbn [Buf.new] in H.
    destruct (serializeAddress (tx_from t) _) as [[b1|] h1] eqn:E1; [|discriminate].
    destruct (serializeAddress (tx_to t) _) as [[b2|] h2] eqn:E2; [|discriminate].
    destruct (serializeTokenId _ _) as [[b3|] h3] eqn:E3; [|discriminate].
    destruct (serializeAmountPacked _ _) as [[b4|] h4] eqn:E4; [|discriminate].
    destruct (serializeFeePacked _ _) as [[b5|] h5] eqn:E5; [|discriminate].
    destruct (serializeNonce _ _) as [[b6|] h6] eqn:E6; [|discriminate].
    repeat split;
      eauto using serializeAddress_ok_contents, serializeTokenId_ok_contents,
        serializeNonce_ok_contents.
    + exact (packChecked_ok_contents Amount _ _ _ _ E4).
    + exact (packChecked_ok_contents Fee _ _ _ _ E5).
  - unfold signSyncWithdraw, bind in H. cbn [Buf.new] in H.
    destruct (serializeAddress (tx_from t) _) as [[b1|] h1] eqn:E1; [|discriminate].
    destruct (serializeAddress (tx_to t) _) as [[b2|] h2] eqn:E2; [|discriminate].
    destruct (serializeTokenId _ _) as [[b3|] h3] eqn:E3; [|discriminate].
    destruct (serializeAmountFull _ _) as [[b4|] h4] eqn:E4; [|discriminate].
    destruct (serializeFeePacked _ _) as [[b5|] h5] eqn:E5; [|discriminate].
    destruct (serializeNonce _ _) as [[b6|] h6] eqn:E6; [|discriminate].
    repeat split;
      eauto using serializeAddress_ok_contents, serializeTokenId_ok_contents,
        serializeNonce_ok_contents, serializeAmountFull_ok_contents.
    exact (packChecked_ok_contents Fee _ _ _ _ E5).
Qed.

End Signing.

Lemma own_address_round_trip_witness :
  exists own h1,
    address unit example_point example_hash example_signer [] = (Ok own, h1)
    /\ (length (example_hash (publicKey unit example_point example_signer))
        = 20%nat ->
        exists b h2,
          serializeAddress own h1 = (Ok b, h2)
          /\ h2 !! b
             = Some (example_hash (publicKey unit example_point example_signer)))
    /\ (length (example_hash (publicKey unit example_point example_signer))
        <> 20%nat ->
        fst (serializeAddress own h1) = Throw BadAddressLength).
Proof.
  apply (own_address_round_trip unit example_point example_hash example_signer []).
  repeat constructor; unfold is_byte; lia.
Defined.

Lemma close_account_layout_witness :
  exists tx h' nonceBytes,
    signSyncCloseAccount (list Z) (fun _ msg => msg)
      unit example_point example_hash example_signer 7 [] = (Ok tx, h')
    /\ contents (serializeNonce 7) = Some nonceBytes
    /\ length nonceBytes = 4%nat /\ Forall is_byte nonceBytes
    /\ BN.of_bytes_be nonceBytes = 7
    /\ Forall is_byte
         (4 :: example_hash (publicKey unit example_point example_signer)
            ++ nonceBytes)
    /\ close_signature (list Z) tx
       = 4 :: example_hash (publicKey unit example_point example_signer)
           ++ nonceBytes
    /\ length (4 :: example_hash (publicKey unit example_point example_signer)
                 ++ nonceBytes) = 25%nat
    /\ close_account (list Z) tx
       = "sync:" +:+
         hex_encode (example_hash (publicKey unit example_point example_signer))
    /\ close_nonce (list Z) tx = 7.
Proof.
  apply (close_account_layout (list Z) (fun _ msg => msg)
           unit example_point example_hash example_signer 7 []).
  - repeat constructor; unfold is_byte; lia.
  - reflexivity.
  - lia.
Defined.

Lemma close_account_rejects_witness :
  (length (example_hash (publicKey unit example_point example_signer))
   <> 20%nat ->
   fst (signSyncCloseAccount (list Z) (fun _ msg => msg)
          unit example_point example_hash example_signer (-1) [])
   = Throw BadAddressLength)
  /\ (length (example_hash (publicKey unit example_point example_signer))
      = 20%nat ->
      -1 < 0 ->
      fst (signSyncCloseAccount (list Z) (fun _ msg => msg)
             unit example_point example_hash example_signer (-1) [])
      = Throw NegativeNonce).
Proof.
  apply (close_account_rejects (list Z) (fun _ msg => msg)
           unit example_point example_hash example_signer (-1) []).
  repeat constructor; unfold is_byte; lia.
Defined.

Lemma signing_keeps_existing_buffers_witness :
  snd (signSyncTransfer (list Z) (fun _ msg => msg)
         example_signer example_fields [[1; 2]]) !! 0%nat = Some [1; 2]
  /\ snd (signSyncWithdraw (list Z) (fun _ msg => msg)
            example_signer example_fields [[1; 2]]) !! 0%nat = Some [1; 2].
Proof.
  apply (signing_keeps_existing_buffers (list Z) (fun _ msg => msg)
           example_signer example_fields [[1; 2]] 0%nat [1; 2]).
  reflexivity.
Defined.

(** ** Text after the forty digits of an address *)

Lemma hex_decode_app n : forall hx tail,
  String.length hx = (2 * n)%nat -> all_hex hx = true ->
  hex_decode (hx +:+ tail) = hex_decode hx ++ hex_decode tail.
Proof.
  induction n as [|n IH]; intros hx tail Hlen Hhex.
  - now destruct hx.
  - destruct hx as [|hi [|lo rest]]; try (simpl in Hlen; lia).
    cbn [all_hex] in Hhex. apply andb_prop in Hhex as [Hhi Hrest].
    apply andb_prop in Hrest as [Hlo Hrest].
    unfold is_hex_digit in Hhi, Hlo.
    change (String hi (String lo rest) +:+ tail)
      with (String hi (String lo (rest +:+ tail))).
    cbn [hex_decode].
    destruct (unhex hi); [|discriminate]. destruct (unhex lo); [|discriminate].
    rewrite IH; [reflexivity| |assumption]. simpl in Hlen. lia.
Qed.

Lemma hex_decode_tail tail :
  hex_decode tail = [] <-> begins_with_hex_pair tail = false.
Proof.
  destruct tail as [|hi [|lo rest]]; try easy.
  cbn [hex_decode begins_with_hex_pair]. unfold is_hex_digit.
  destruct (unhex hi), (unhex lo); easy.
Qed.

(** X21: what follows the forty hexadecimal digits of an address is not
    checked as long as it does not start with two more hexadecimal digits:
    hex decoding stops there, twenty bytes result, and [serializeAddress]
    returns the same bytes as for the forty digits alone.  When two more
    digits follow, it throws the length error. *)
Theorem serializeAddress_trailing_text (hx tail : string) (h : heap) :
  String.length hx = 40%nat -> all_hex hx = true ->
  (begins_with_hex_pair tail = false ->
   serializeAddress ("0x" +:+ hx +:+ tail) h = serializeAddress ("0x" +:+ hx) h
   /\ serializeAddress ("sync:" +:+ hx +:+ tail) h
      = serializeAddress ("0x" +:+ hx) h
   /\ exists bytes,
        length bytes = 20%nat
        /\ serializeAddress ("0x" +:+ hx) h = (Ok (length h), h ++ [bytes]))
  /\ (begins_with_hex_pair tail = true ->
      fst (serializeAddress ("0x" +:+ hx +:+ tail) h) = Throw BadAddressLength
      /\ fst (serializeAddress ("sync:" +:+ hx +:+ tail) h)
         = Throw BadAddressLength).
Proof.
  intros Hlen Hhex.
  pose proof (hex_decode_length 20 hx Hlen Hhex) as H20.
  pose proof (hex_decode_app 20 hx tail Hlen Hhex) as Happ.
  rewrite !serializeAddress_run, !prefixless_0x, !prefixless_sync, Happ.
  split; intros Htail.
  - apply hex_decode_tail in Htail. rewrite Htail, app_nil_r, H20.
    cbn [Nat.eqb]. eauto.
  - assert (Hne : hex_decode tail <> [])
      by (intros Hnil; apply hex_decode_tail in Hnil; congruence).
    rewrite length_app, H20.
    destruct (hex_decode tail) as [|x xs]; [contradiction|]. cbn [length].
    replace (20 + S (length xs) =? 20)%nat with false; [easy|].
    symmetry. apply Nat.eqb_neq. lia.
Qed.

Lemma serializeAddress_trailing_text_witness :
  (begins_with_hex_pair "7 and more" = false ->
   serializeAddress
     ("0x" +:+ "00112233445566778899aabbccddeeff01020304" +:+ "7 and more") []
   = serializeAddress ("0x" +:+ "00112233445566778899aabbccddeeff01020304") []
   /\ serializeAddress
        ("sync:" +:+ "00112233445566778899aabbccddeeff01020304" +:+ "7 and more")
        []
      = serializeAddress ("0x" +:+ "00112233445566778899aabbccddeeff01020304") []
   /\ exists bytes,
        length bytes = 20%nat
        /\ serializeAddress
             ("0x" +:+ "00112233445566778899aabbccddeeff01020304") []
           = (Ok (length ([] : list (list Z))), [] ++ [bytes]))
  /\ (begins_with_hex_pair "7 and more" = true ->
      fst (serializeAddress
             ("0x" +:+ "00112233445566778899aabbccddeeff01020304"
              +:+ "7 and more") []) = Throw BadAddressLength
      /\ fst (serializeAddress
                ("sync:" +:+ "00112233445566778899aabbccddeeff01020304"
                 +:+ "7 and more") []) = Throw BadAddressLength).
Proof.
  apply (serializeAddress_trailing_text
           "00112233445566778899aabbccddeeff01020304" "7 and more" []);
    reflexivity.
Defined.

(** ** [reverseBits] twice *)

(** X22: applying [reverseBits] to its own result gives a buffer with the
    original bytes in the original order.  Along the way the first result is
    itself reversed in place, so it ends up equal to the second, and the
    argument of the first call stays reversed. *)
Theorem reverseBits_twice (h : heap) (b : Buffer) (bs : list Z) :
  h !! b = Some bs ->
  exists r1 r2 h',
    (let* r1 := reverseBits b in let* r2 := reverseBits r1 in ret (r1, r2)) h
    = (Ok (r1, r2), h')
    /\ h' !! r2 = Some bs /\ h' !! r1 = Some bs /\ h' !! b = Some (rev bs).
Proof.
  intros E.
  assert (Hb : (b < length h)%nat) by (eapply lookup_lt_Some; eauto).
  set (h1 := <[b := rev bs]> h
             ++ [rev bs;
                 List.map (fun x => JS.to_uint8 (reverse_bits_in_byte x)) (rev bs)]).
  assert (E1 : h1 !! length h = Some (rev bs)).
  { unfold h1. rewrite lookup_app_r; rewrite length_insert; [|lia].
    now rewrite Nat.sub_diag. }
  assert (Hlen1 : length h1 = (length h + 2)%nat).
  { unfold h1. rewrite length_app, length_insert. reflexivity. }
  exists (length h), (length h1). eexists.
  rewrite (bind_ok _ _ _ _ _ (reverseBits_run _ _ _ E)). fold h1.
  rewrite (bind_ok _ _ _ _ _ (reverseBits_run _ _ _ E1)).
  rewrite rev_involutive. split; [reflexivity|]. split; [|split].
  - rewrite lookup_app_r; rewrite length_insert; [|lia].
    now rewrite Nat.sub_diag.
  - apply lookup_app_l_Some, list_lookup_insert_eq. lia.
  - apply lookup_app_l_Some. rewrite list_lookup_insert_ne by lia.
    unfold h1. apply lookup_app_l_Some, list_lookup_insert_eq. exact Hb.
Qed.

Lemma reverseBits_twice_witness :
  exists r1 r2 h',
    (let* r1 := reverseBits 0%nat in let* r2 := reverseBits r1 in ret (r1, r2))
      [[1; 2; 3]]
    = (Ok (r1, r2), h')
    /\ h' !! r2 = Some [1; 2; 3] /\ h' !! r1 = Some [1; 2; 3]
    /\ h' !! 0%nat = Some (rev [1; 2; 3]).
Proof.
  apply (reverseBits_twice [[1; 2; 3]] 0%nat [1; 2; 3]). reflexivity.
Defined.

(** ** The encoder at any byte-aligned width *)

(** X23: for an exponent width of at most 30 bits and widths that add up to
    a multiple of eight, [integerToFloat] on a value between zero and the
    bound returns a buffer of [(expBits + mantissaBits) / 8] elements, each of
    them a byte, which read from the last to the first as one number are
    [mantissa * 2^expBits + exponent]: the little-endian layout of the least
    exponent that fits and of the value divided by that power of ten. *)
Theorem integerToFloat_little_endian (eb mb v : Z) (h : heap) :
  0 <= eb <= 30 -> 0 <= mb -> (eb + mb) mod 8 = 0 ->
  0 <= v <= (2 ^ mb - 1) * 10 ^ (2 ^ eb - 1) ->
  exists e b h' bytes,
    0 <= e < 2 ^ eb
    /\ v / 10 ^ e <= 2 ^ mb - 1
    /\ (forall j, 0 <= j < e -> 2 ^ mb - 1 < v / 10 ^ j)
    /\ integerToFloat v eb mb 10 h = (Ok b, h') /\ h' !! b = Some bytes
    /\ Z.of_nat (length bytes) * 8 = eb + mb
    /\ Forall is_byte bytes
    /\ BN.of_bytes_be (rev bytes) = v / 10 ^ e * 2 ^ eb + e
    /\ forall l, (l < length h)%nat -> h' !! l = h !! l.
Proof.
  intros Heb Hmb Hal Hv.
  destruct (float_fields_ok v eb mb Heb Hmb Hv) as (e & E & (He & Hfit & Hmin) & Hlt).
  destruct (widths_aligned eb mb) as [Hnat Hlen]; try lia.
  exists e, (S (length h)). eexists.
  exists (rev (float_bytes e (v / 10 ^ e) eb mb)).
  split; [lia|]. split; [exact Hfit|]. split; [exact Hmin|]. split.
  { rewrite integerToFloat_run, E, Hnat. reflexivity. }
  split.
  { rewrite lookup_app_r by lia.
    now replace (S (length h) - length h)%nat with 1%nat by lia. }
  split; [rewrite length_rev, float_bytes_length; lia|].
  split; [apply List.Forall_rev, packed_bytes_are_bytes|].
  split.
  - rewrite rev_involutive. apply float_bytes_value; try lia.
    split; [|unfold max_mantissa in Hfit; lia].
    apply Z.div_pos; [lia|apply Z.pow_pos_nonneg; lia].
  - intros l Hl. now rewrite lookup_app_l.
Qed.

Lemma integerToFloat_little_endian_witness :
  exists e b h' bytes,
    0 <= e < 2 ^ 3
    /\ 4321 / 10 ^ e <= 2 ^ 5 - 1
    /\ (forall j, 0 <= j < e -> 2 ^ 5 - 1 < 4321 / 10 ^ j)
    /\ integerToFloat 4321 3 5 10 [] = (Ok b, h') /\ h' !! b = Some bytes
    /\ Z.of_nat (length bytes) * 8 = 3 + 5
    /\ Forall is_byte bytes
    /\ BN.of_bytes_be (rev bytes) = 4321 / 10 ^ e * 2 ^ 3 + e
    /\ forall l, (l < length ([] : list (list Z)))%nat ->
                 h' !! l = ([] : list (list Z)) !! l.
Proof.
  apply (integerToFloat_little_endian 3 5 4321 []);
    first [ lia | reflexivity | vm_compute; split; discriminate ].
Defined.
